(** * Sliding-window request limiter (internal/middleware/rate_limit.go)

    A shallow embedding of [rateLimiter], [newRateLimiter], [allow] and one
    cycle of the [cleanup] reaper, and the properties of the limiter that
    follow from the code.

    Modelling choices.
    - [time.Time] and [time.Duration] are integer nanosecond counts ([Z]).
      [time.Now()] carries a monotonic reading, and [Add]/[After] work on it,
      so instants compare as integers.  The current instant, which the code
      reads with [time.Now()] under the mutex, is an argument [now].
    - [map[string][]time.Time] is [gmap string (list Z)]; a missing key reads
      as the nil slice, i.e. the empty list.
    - [int] is [Z]; [len] is [Z.of_nat (length _)].  Arithmetic at the ends
      of the 64-bit range is not modelled.
    - The mutex serialises [allow] and the reaper, so an execution is a
      sequence of atomic steps; each step is a function on the limiter. *)

From stdpp Require Import gmap strings list fin_maps.
From Stdlib Require Import ZArith Lia Sorted.

Open Scope Z_scope.

(** What a call of a Go function can do: return a value, or panic. *)
Inductive outcome (A : Type) : Type :=
| Returns (a : A)
| Panics.
Arguments Returns {A} a.
Arguments Panics {A}.

(** ** Instants and durations *)

Module Time.

Definition Nanosecond : Z := 1.
Definition Millisecond : Z := 1000000 * Nanosecond.
Definition Second : Z := 1000 * Millisecond.
Definition Minute : Z := 60 * Second.

(** [t.Add(d)] *)
Definition Add (t d : Z) : Z := t + d.

(** [t.After(u)]: [t] is strictly later than [u]. *)
Definition After (t u : Z) : bool := u <? t.

(** [time.NewTicker(d)], as the standard library documents it: it panics
    unless [d] is greater than zero.  Only the panic matters here. *)
Definition NewTicker (d : Z) : outcome unit :=
  if d <=? 0 then Panics else Returns tt.

End Time.

(** ** The limiter *)

Record rateLimiter : Type := mkRateLimiter {
  requests : gmap string (list Z);
  limit : Z;
  window : Z
}.

(** [newRateLimiter]: the fields are stored as given; nothing is checked. *)
Definition newRateLimiter (limit0 : Z) (window0 : Z) : outcome rateLimiter :=
  Returns {| requests := ∅; limit := limit0; window := window0 |}.

(** The pruning loop shared by [allow] and [cleanup]:
    [for _, t := range requests { if t.After(windowStart) { append } }],
    started from [validRequests := []time.Time{}]. *)
Definition validRequests (windowStart : Z) (reqs : list Z) : list Z :=
  fold_left
    (fun valid t => if Time.After t windowStart then valid ++ [t] else valid)
    reqs [].

(** [rl.requests[key]], the nil slice when the key is absent. *)
Definition ledger (rl : rateLimiter) (key : string) : list Z :=
  default [] (requests rl !! key).

Definition store (rl : rateLimiter) (key : string) (ts : list Z) : rateLimiter :=
  {| requests := <[key := ts]> (requests rl);
     limit := limit rl;
     window := window rl |}.

(** [allow], called when the clock reads [now]: the limiter afterwards and
    the decision.  [- window rl] is Go's [-rl.window] for every window but
    [math.MinInt64], the one value at which Go's negation wraps. *)
Definition allow (rl : rateLimiter) (now : Z) (key : string)
  : rateLimiter * bool :=
  let windowStart := Time.Add now (- window rl) in
  let valid := validRequests windowStart (ledger rl key) in
  if limit rl <=? Z.of_nat (length valid)
  then (store rl key valid, false)
  else (store rl key (valid ++ [now]), true).

(** The body of [for key, requests := range rl.requests] in [cleanup]. *)
Definition cleanup_key (windowStart : Z)
    (m : gmap string (list Z)) (kv : string * list Z) : gmap string (list Z) :=
  let valid := validRequests windowStart kv.2 in
  if (length valid =? 0)%nat then delete kv.1 m else <[kv.1 := valid]> m.

(** One tick of the reaper, at clock reading [now].  The loop visits every
    entry of the map once; it only deletes or overwrites the entry it is
    visiting. *)
Definition cleanup_cycle (rl : rateLimiter) (now : Z) : rateLimiter :=
  let windowStart := Time.Add now (- window rl) in
  {| requests :=
       fold_left (cleanup_key windowStart)
                 (map_to_list (requests rl)) (requests rl);
     limit := limit rl;
     window := window rl |}.

(** [cleanup], run in its own goroutine: the ticker is created from
    [rl.window], then one cycle runs for each tick delivered so far. *)
Definition cleanup (rl : rateLimiter) (ticks : list Z) : outcome rateLimiter :=
  match Time.NewTicker (window rl) with
  | Panics => Panics
  | Returns _ => Returns (fold_left cleanup_cycle ticks rl)
  end.

(** ** Executions *)

(** A sequence of [allow] calls, each with the clock reading at the call. *)
Fixpoint calls (rl : rateLimiter) (cs : list (Z * string))
  : rateLimiter * list bool :=
  match cs with
  | [] => (rl, [])
  | (now, key) :: cs' =>
      let '(rl1, b) := allow rl now key in
      let '(rl2, bs) := calls rl1 cs' in
      (rl2, b :: bs)
  end.

(** Calls for one key at the given clock readings. *)
Definition calls_for (rl : rateLimiter) (key : string) (times : list Z)
  : rateLimiter * list bool :=
  calls rl (map (fun t => (t, key)) times).

(** Number of admitted calls. *)
Definition admitted (bs : list bool) : Z :=
  Z.of_nat (length (List.filter (fun b => b) bs)).

(** The steps that the mutex serialises. *)
Inductive event : Type :=
| Allow (now : Z) (key : string)
| Tick (now : Z).

Definition at_time (e : event) : Z :=
  match e with Allow now _ => now | Tick now => now end.

Definition step (rl : rateLimiter) (e : event) : rateLimiter :=
  match e with
  | Allow now key => (allow rl now key).1
  | Tick now => cleanup_cycle rl now
  end.

(** [reachable rl t]: [rl] results from a limiter built by [newRateLimiter]
    after steps taken at nondecreasing clock readings, the last reading being
    at most [t]. *)
Inductive reachable : rateLimiter -> Z -> Prop :=
| reach_new limit0 window0 rl t :
    newRateLimiter limit0 window0 = Returns rl ->
    reachable rl t
| reach_step rl t e t' :
    reachable rl t ->
    t <= at_time e ->
    at_time e <= t' ->
    reachable (step rl e) t'.

(** The limiter and the clock readings of the scenario in the
    specification: five requests per sixty seconds. *)
Definition scenario_limiter : rateLimiter :=
  {| requests := ∅; limit := 5; window := 60 * Time.Second |}.

Definition scenario_burst : list Z :=
  [0; 1 * Time.Millisecond; 2 * Time.Millisecond; 3 * Time.Millisecond;
   4 * Time.Millisecond; 5 * Time.Millisecond].

(** ** State predicates *)

(** Every stored timestamp was read from the clock no later than [t]. *)
Definition stamped_by (rl : rateLimiter) (t : Z) : Prop :=
  forall key ts, requests rl !! key = Some ts -> Forall (fun x => x <= t) ts.

(** Every stored ledger has at most [limit] entries, oldest first. *)
Definition bounded_sorted (rl : rateLimiter) : Prop :=
  forall key ts, requests rl !! key = Some ts ->
    Z.of_nat (length ts) <= limit rl /\ Sorted Z.le ts.

(** The clock readings of a sequence of calls lie in a single window: any
    two of them are less than [w] apart. *)
Definition within_window (w : Z) (times : list Z) : Prop :=
  forall t t', t ∈ times -> t' ∈ times -> t' < t + w.

(** Whatever [key]'s ledger holds has expired at each of the readings. *)
Definition expired_before (rl : rateLimiter) (key : string) (times : list Z)
  : Prop :=
  Forall (fun now => Forall (fun t => t <= now - window rl) (ledger rl key))
         times.

(** How many timestamps of a ledger are at or after [lo]. *)
Definition live_since (lo : Z) (ts : list Z) : Z :=
  Z.of_nat (length (List.filter (fun t => lo <=? t) ts)).

(** Follows the words of the specification, for comparison with
    [validRequests]: drop the longest prefix of timestamps that are not
    after [windowStart]. *)
Fixpoint drop_expired_prefix (windowStart : Z) (reqs : list Z) : list Z :=
  match reqs with
  | [] => []
  | t :: rest =>
      if Time.After t windowStart then reqs
      else drop_expired_prefix windowStart rest
  end.

(** ** Executions with the reaper *)

(** A run of serialised steps: the limiter afterwards and the decisions of
    the [allow] calls, in order. *)
Fixpoint run (rl : rateLimiter) (es : list event) : rateLimiter * list bool :=
  match es with
  | [] => (rl, [])
  | Allow now key :: es' =>
      let '(rl1, b) := allow rl now key in
      let '(rl2, bs) := run rl1 es' in
      (rl2, b :: bs)
  | Tick now :: es' => run (cleanup_cycle rl now) es'
  end.

Definition is_allow (e : event) : bool :=
  match e with Allow _ _ => true | Tick _ => false end.

(** The run with the reaper switched off. *)
Definition drop_ticks (es : list event) : list event := List.filter is_allow es.

(** How many calls for [key] a run admits. *)
Fixpoint admitted_for (rl : rateLimiter) (key : string) (es : list event) : Z :=
  match es with
  | [] => 0
  | e :: es' =>
      (match e with
       | Allow now k =>
           if bool_decide (k = key) && (allow rl now k).2 then 1 else 0
       | Tick _ => 0
       end) + admitted_for (step rl e) key es'
  end.

(** Two limiters that a caller at clock reading [t] or later cannot tell
    apart: same limit and window, and for every key the same timestamps
    after [t - window]. *)
Definition same_view (t : Z) (rl rl' : rateLimiter) : Prop :=
  limit rl = limit rl' /\
  window rl = window rl' /\
  forall key,
    validRequests (t - window rl) (ledger rl key)
    = validRequests (t - window rl) (ledger rl' key).

(** ** The middlewares *)

(** A value of [gin.Context.Keys] (an [any]): a string, or something that
    is not a string -- the nil interface included. *)
Inductive anyvalue : Type :=
| Str (s : string)
| NonStr.

(** The parts of [gin.Context] that [RateLimit] and [RequestID] read and
    write.  The header maps are Go's [http.Header] maps, from the name
    under which an entry is stored to its values. *)
Record ginContext : Type := mkContext {
  ClientIP : string;
  RequestHeader : gmap string (list string);
  Keys : gmap string anyvalue;
  ResponseHeader : gmap string (list string)
}.

(** What a handler does with the chain: [c.Next()], or
    [c.JSON(status, gin.H{"code": .., "message": ..})] and [c.Abort()]. *)
Inductive reply : Type :=
| Next
| AbortJSON (status : Z) (code message : string).

Definition StatusTooManyRequests : Z := 429.

(** The key the handler of [RateLimit] charges: [c.ClientIP()], replaced by
    [userID.(string)] when [c.Get("user_id")] finds a value.  The type
    assertion panics on a value that is not a string. *)
Definition rateLimitKey (c : ginContext) : outcome string :=
  match Keys c !! "user_id" with
  | Some (Str userID) => Returns userID
  | Some NonStr => Panics
  | None => Returns (ClientIP c)
  end.

(** [RateLimit(requestsPerMinute)]: the limiter that the returned handler
    captures. *)
Definition RateLimit (requestsPerMinute : Z) : outcome rateLimiter :=
  newRateLimiter requestsPerMinute Time.Minute.

(** The handler returned by [RateLimit], run when the clock reads [now]:
    the captured limiter afterwards, and what the handler did.  A panic in
    the key selection happens before [allow] is reached. *)
Definition RateLimit_handler (limiter : rateLimiter) (now : Z) (c : ginContext)
  : rateLimiter * outcome reply :=
  match rateLimitKey c with
  | Panics => (limiter, Panics)
  | Returns key =>
      let '(limiter', ok) := allow limiter now key in
      if negb ok
      then (limiter',
            Returns (AbortJSON StatusTooManyRequests "RATE_LIMIT_EXCEEDED"
                       "Too many requests, please try again later"))
      else (limiter', Returns Next)
  end.

(** The handler on a sequence of requests, each with its clock reading. *)
Fixpoint serve (limiter : rateLimiter) (reqs : list (Z * ginContext))
  : rateLimiter * list (outcome reply) :=
  match reqs with
  | [] => (limiter, [])
  | (now, c) :: reqs' =>
      let '(limiter1, r) := RateLimit_handler limiter now c in
      let '(limiter2, rs) := serve limiter1 reqs' in
      (limiter2, r :: rs)
  end.

(** Requests that were passed on to the next handler. *)
Definition passed (rs : list (outcome reply)) : Z :=
  Z.of_nat (length (List.filter
    (fun r => match r with Returns Next => true | _ => false end) rs)).

(** The reply that rejects a request. *)
Definition too_many_requests : reply :=
  AbortJSON StatusTooManyRequests "RATE_LIMIT_EXCEEDED"
    "Too many requests, please try again later".

(** The [allow] calls that a sequence of requests makes: one for each
    request whose key selection does not panic. *)
Fixpoint request_events (reqs : list (Z * ginContext)) : list event :=
  match reqs with
  | [] => []
  | (now, c) :: reqs' =>
      match rateLimitKey c with
      | Returns key => Allow now key :: request_events reqs'
      | Panics => request_events reqs'
      end
  end.

(** How many of the requests charged to [key] were passed on. *)
Fixpoint passed_for (limiter : rateLimiter) (key : string)
    (reqs : list (Z * ginContext)) : Z :=
  match reqs with
  | [] => 0
  | (now, c) :: reqs' =>
      (match rateLimitKey c, (RateLimit_handler limiter now c).2 with
       | Returns k, Returns Next => if bool_decide (k = key) then 1 else 0
       | _, _ => 0
       end) + passed_for (RateLimit_handler limiter now c).1 key reqs'
  end.

Definition RequestIDHeader : string := "X-Request-ID".

(** Header names.  [net/textproto]'s [CanonicalMIMEHeaderKey], as the
    standard library documents it: when every byte of the name is a valid
    header field byte (a letter, a digit or one of [!#$%&'*+-.^_`|~]), the
    first letter and every letter after a hyphen are put in upper case and
    all other letters in lower case; any other name is returned as it is. *)
Definition is_lower (c : Ascii.ascii) : bool :=
  ((97 <=? Ascii.nat_of_ascii c) && (Ascii.nat_of_ascii c <=? 122))%nat.

Definition is_upper (c : Ascii.ascii) : bool :=
  ((65 <=? Ascii.nat_of_ascii c) && (Ascii.nat_of_ascii c <=? 90))%nat.

Definition is_digit (c : Ascii.ascii) : bool :=
  ((48 <=? Ascii.nat_of_ascii c) && (Ascii.nat_of_ascii c <=? 57))%nat.

Definition validHeaderFieldByte (c : Ascii.ascii) : bool :=
  is_lower c || is_upper c || is_digit c
  || existsb (Nat.eqb (Ascii.nat_of_ascii c))
       [33; 35; 36; 37; 38; 39; 42; 43; 45; 46; 94; 95; 96; 124; 126]%nat.

Fixpoint valid_header_name (s : string) : bool :=
  match s with
  | String.EmptyString => true
  | String.String c s' => validHeaderFieldByte c && valid_header_name s'
  end.

Fixpoint canonical_case (upper : bool) (s : string) : string :=
  match s with
  | String.EmptyString => String.EmptyString
  | String.String c s' =>
      let c' :=
        if upper && is_lower c then Ascii.ascii_of_nat (Ascii.nat_of_ascii c - 32)
        else if negb upper && is_upper c then Ascii.ascii_of_nat (Ascii.nat_of_ascii c + 32)
        else c in
      String.String c' (canonical_case (Nat.eqb (Ascii.nat_of_ascii c') 45) s')
  end.

Definition CanonicalMIMEHeaderKey (s : string) : string :=
  if valid_header_name s then canonical_case true s else s.

(** [c.GetHeader(key)], that is [c.Request.Header.Get(key)]: the first
    value stored under the canonical form of [key], or the empty string. *)
Definition GetHeader (c : ginContext) (key : string) : string :=
  match RequestHeader c !! CanonicalMIMEHeaderKey key with
  | Some (v :: _) => v
  | _ => ""
  end.

(** [c.Set(key, value)] *)
Definition SetKey (c : ginContext) (key : string) (value : anyvalue)
  : ginContext :=
  {| ClientIP := ClientIP c;
     RequestHeader := RequestHeader c;
     Keys := <[key := value]> (Keys c);
     ResponseHeader := ResponseHeader c |}.

(** [c.Header(key, value)]: gin calls [c.Writer.Header().Set(key, value)],
    which stores the single value under the canonical form of [key], and
    [c.Writer.Header().Del(key)], which deletes that entry, when the value
    is empty. *)
Definition Header (c : ginContext) (key value : string) : ginContext :=
  {| ClientIP := ClientIP c;
     RequestHeader := RequestHeader c;
     Keys := Keys c;
     ResponseHeader :=
       if String.eqb value ""
       then delete (CanonicalMIMEHeaderKey key) (ResponseHeader c)
       else <[CanonicalMIMEHeaderKey key := [value]]> (ResponseHeader c) |}.

(** The handler returned by [RequestID]; [fresh] is what
    [uuid.New().String()] would give. *)
Definition RequestID_handler (fresh : string) (c : ginContext)
  : ginContext * reply :=
  let requestID := GetHeader c RequestIDHeader in
  let requestID := if String.eqb requestID "" then fresh else requestID in
  (Header (SetKey c "request_id" (Str requestID)) RequestIDHeader requestID,
   Next).

(** ** The pruning loop *)

Lemma validRequests_acc ws reqs acc :
  fold_left
    (fun valid t => if Time.After t ws then valid ++ [t] else valid)
    reqs acc
  = acc ++ List.filter (fun t => Time.After t ws) reqs.
Proof.
  revert acc. induction reqs as [|t reqs IH]; intros acc; simpl.
  - by rewrite app_nil_r.
  - rewrite IH. destruct (Time.After t ws); [|done].
    by rewrite <- app_assoc.
Qed.

Lemma validRequests_filter ws reqs :
  validRequests ws reqs = List.filter (fun t => Time.After t ws) reqs.
Proof. unfold validRequests. by rewrite validRequests_acc. Qed.

Lemma validRequests_after ws reqs :
  Forall (fun t => ws < t) (validRequests ws reqs).
Proof.
  rewrite validRequests_filter. apply List.Forall_forall.
  intros t [_ Ht]%filter_In. unfold Time.After in Ht. lia.
Qed.

Lemma validRequests_length ws reqs :
  (length (validRequests ws reqs) <= length reqs)%nat.
Proof. rewrite validRequests_filter. apply List.filter_length_le. Qed.

Lemma validRequests_Forall (P : Z -> Prop) ws reqs :
  Forall P reqs -> Forall P (validRequests ws reqs).
Proof.
  rewrite validRequests_filter, !List.Forall_forall.
  intros H t [Ht _]%filter_In. by apply H.
Qed.

Lemma validRequests_keep ws reqs :
  Forall (fun t => ws < t) reqs -> validRequests ws reqs = reqs.
Proof.
  rewrite validRequests_filter. induction 1 as [|t reqs Ht _ IH]; simpl.
  - done.
  - unfold Time.After at 1. destruct (Z.ltb_spec ws t); [|lia].
    by rewrite IH.
Qed.

Lemma validRequests_none ws reqs :
  Forall (fun t => t <= ws) reqs -> validRequests ws reqs = [].
Proof.
  rewrite validRequests_filter. induction 1 as [|t reqs Ht _ IH]; simpl.
  - done.
  - unfold Time.After at 1. destruct (Z.ltb_spec ws t); [lia|done].
Qed.

Lemma validRequests_Sorted ws reqs :
  Sorted Z.le reqs -> Sorted Z.le (validRequests ws reqs).
Proof.
  intros Hs. apply Sorted_StronglySorted in Hs; [|intros x y z; lia].
  apply StronglySorted_Sorted. rewrite validRequests_filter.
  induction Hs as [|t reqs _ IH Hall]; simpl.
  - constructor.
  - destruct (Time.After t ws); [|done].
    constructor; [done|].
    apply List.Forall_forall. intros x [Hx _]%filter_In.
    by apply (proj1 (List.Forall_forall _ _) Hall).
Qed.

Lemma Sorted_snoc (l : list Z) (x : Z) :
  Sorted Z.le l -> Forall (fun y => y <= x) l -> Sorted Z.le (l ++ [x]).
Proof.
  induction 1 as [|y l Hs IH Hhd]; intros Hall; simpl.
  - repeat constructor.
  - inversion Hall as [|? ? Hy Hl]; subst.
    constructor; [by apply IH|].
    destruct l as [|z l]; simpl; constructor.
    + done.
    + by inversion Hhd.
Qed.

Lemma validRequests_cons ws t reqs :
  validRequests ws (t :: reqs)
  = if Time.After t ws then t :: validRequests ws reqs
    else validRequests ws reqs.
Proof. rewrite !validRequests_filter. reflexivity. Qed.

(** C8. On a ledger ordered oldest first, the element-by-element filter of
    [allow] and [cleanup] (keep the timestamps strictly after [windowStart])
    gives the same list, in the same order, as dropping the longest prefix
    of timestamps that are not after [windowStart]. *)
Theorem validRequests_prefix_drop (windowStart : Z) (reqs : list Z) :
  Sorted Z.le reqs ->
  validRequests windowStart reqs = drop_expired_prefix windowStart reqs.
Proof.
  intros Hs. apply Sorted_StronglySorted in Hs; [|intros x y z; lia].
  induction Hs as [|t reqs _ IH Hall].
  - reflexivity.
  - rewrite validRequests_cons. simpl.
    destruct (Time.After t windowStart) eqn:Ht; [|exact IH].
    f_equal. apply validRequests_keep.
    unfold Time.After in Ht. apply Z.ltb_lt in Ht.
    eapply Forall_impl; [exact Hall|]. intros x Hx. simpl in Hx. lia.
Qed.

Lemma validRequests_prefix_drop_witness :
  Sorted Z.le [1; 4; 4; 9] /\
  validRequests 4 [1; 4; 4; 9] = drop_expired_prefix 4 [1; 4; 4; 9] /\
  validRequests 4 [1; 4; 4; 9] = [9].
Proof.
  assert (Hs : Sorted Z.le [1; 4; 4; 9]).
  { repeat constructor; lia. }
  split; [exact Hs|]. split.
  - apply (validRequests_prefix_drop 4 [1; 4; 4; 9]). exact Hs.
  - reflexivity.
Defined.

(** Without the ordering the two differ: the filter also removes expired
    timestamps that come after a live one. *)
Example validRequests_unsorted :
  validRequests 4 [9; 1] = [9] /\ drop_expired_prefix 4 [9; 1] = [9; 1].
Proof. split; reflexivity. Qed.

(** ** [allow] *)

Lemma allow_decision rl now key :
  (allow rl now key).2
  = negb (limit rl <=?
          Z.of_nat (length (validRequests (now - window rl) (ledger rl key)))).
Proof.
  unfold allow, Time.Add. replace (now + - window rl) with (now - window rl) by lia.
  by destruct (limit rl <=? _).
Qed.

Lemma allow_ledger rl now key :
  requests (allow rl now key).1 !! key
  = Some (let valid := validRequests (now - window rl) (ledger rl key) in
          if (allow rl now key).2 then valid ++ [now] else valid).
Proof.
  unfold allow, Time.Add. replace (now + - window rl) with (now - window rl) by lia.
  destruct (limit rl <=? _); simpl; apply lookup_insert_eq.
Qed.

Lemma allow_other rl now key key' :
  key ≠ key' ->
  requests (allow rl now key).1 !! key' = requests rl !! key'.
Proof.
  intros Hne. unfold allow.
  destruct (limit rl <=? _); simpl; by apply lookup_insert_ne.
Qed.

Lemma allow_limit rl now key : limit (allow rl now key).1 = limit rl.
Proof. unfold allow. by destruct (limit rl <=? _). Qed.

Lemma allow_window rl now key : window (allow rl now key).1 = window rl.
Proof. unfold allow. by destruct (limit rl <=? _). Qed.

Lemma allow_ledger' rl now key :
  ledger (allow rl now key).1 key
  = let valid := validRequests (now - window rl) (ledger rl key) in
    if (allow rl now key).2 then valid ++ [now] else valid.
Proof. unfold ledger at 1. by rewrite allow_ledger. Qed.

(** C6. A call for [k1] leaves the ledger of every other key [k2] as it was,
    and its decision (and the ledger it stores for [k1]) is a function of
    [k1]'s ledger, the limit, the window and the clock reading alone: two
    limiters that agree on these give the same answer, whatever their other
    keys hold. *)
Theorem allow_key_isolation (rl rl' : rateLimiter) (now : Z) (k1 k2 : string) :
  k1 ≠ k2 ->
  requests (allow rl now k1).1 !! k2 = requests rl !! k2 /\
  (ledger rl k1 = ledger rl' k1 ->
   limit rl = limit rl' ->
   window rl = window rl' ->
   (allow rl now k1).2 = (allow rl' now k1).2 /\
   ledger (allow rl now k1).1 k1 = ledger (allow rl' now k1).1 k1).
Proof.
  intros Hne. split.
  - by apply allow_other.
  - intros Hl Hlim Hwin.
    assert (Hd : (allow rl now k1).2 = (allow rl' now k1).2).
    { by rewrite !allow_decision, Hl, Hlim, Hwin. }
    split; [exact Hd|].
    by rewrite !allow_ledger', Hd, Hl, Hwin.
Qed.

Lemma allow_key_isolation_witness :
  let rl := {| requests := {[ "A" := [10; 20]; "B" := [15] ]};
               limit := 2; window := 100 |} in
  let rl' := {| requests := {[ "A" := [10; 20] ]};
                limit := 2; window := 100 |} in
  "A" ≠ "B" /\
  requests (allow rl 30 "A").1 !! "B" = Some [15] /\
  (allow rl 30 "A").2 = (allow rl' 30 "A").2.
Proof.
  intros rl rl'.
  assert (Hne : "A" ≠ "B") by discriminate.
  destruct (allow_key_isolation rl rl' 30 "A" "B" Hne) as [Hframe Hdec].
  split; [exact Hne|]. split.
  - rewrite Hframe. reflexivity.
  - apply Hdec; reflexivity.
Defined.

(** ** Sequences of calls *)

Lemma calls_cons rl now key cs :
  calls rl ((now, key) :: cs)
  = ((calls (allow rl now key).1 cs).1,
     (allow rl now key).2 :: (calls (allow rl now key).1 cs).2).
Proof.
  simpl. destruct (allow rl now key) as [rl1 b]. simpl.
  by destruct (calls rl1 cs).
Qed.

Lemma calls_for_cons rl key t times :
  calls_for rl key (t :: times)
  = ((calls_for (allow rl t key).1 key times).1,
     (allow rl t key).2 :: (calls_for (allow rl t key).1 key times).2).
Proof. unfold calls_for. simpl map. apply calls_cons. Qed.

Lemma calls_window rl cs : window (calls rl cs).1 = window rl.
Proof.
  revert rl. induction cs as [|[now key] cs IH]; intros rl; [done|].
  rewrite calls_cons. simpl. by rewrite IH, allow_window.
Qed.

Lemma calls_length rl cs : length (calls rl cs).2 = length cs.
Proof.
  revert rl. induction cs as [|[now key] cs IH]; intros rl; [done|].
  rewrite calls_cons. simpl. by rewrite IH.
Qed.

Lemma admitted_cons b bs :
  admitted (b :: bs) = (if b then 1 else 0) + admitted bs.
Proof. unfold admitted. destruct b; simpl; lia. Qed.

(** ** Construction *)

Lemma allow_rejects_nonpositive rl now key :
  limit rl <= 0 -> (allow rl now key).2 = false.
Proof.
  intros Hl. rewrite allow_decision.
  destruct (Z.leb_spec (limit rl)
    (Z.of_nat (length (validRequests (now - window rl) (ledger rl key)))));
    [done|lia].
Qed.

Lemma calls_reject_nonpositive rl cs :
  limit rl <= 0 -> (calls rl cs).2 = repeat false (length cs).
Proof.
  revert rl. induction cs as [|[now key] cs IH]; intros rl Hl; [done|].
  rewrite calls_cons. simpl.
  rewrite allow_rejects_nonpositive by done.
  f_equal. apply IH. by rewrite allow_limit.
Qed.

(** C9. A limiter with [limit <= 0] rejects every call, for every key and
    clock reading, also along any sequence of calls; the call appends
    nothing, and it stores the pruned ledger under the key -- so a key that
    was absent, and has never been admitted, gets an (empty) map entry. *)
Theorem allow_nonpositive_limit (rl : rateLimiter) (now : Z) (key : string) :
  limit rl <= 0 ->
  (allow rl now key).2 = false /\
  requests (allow rl now key).1 !! key
    = Some (validRequests (now - window rl) (ledger rl key)) /\
  (requests rl !! key = None ->
   requests (allow rl now key).1 !! key = Some []) /\
  (forall cs, (calls rl cs).2 = repeat false (length cs)).
Proof.
  intros Hl.
  pose proof (allow_rejects_nonpositive rl now key Hl) as Hd.
  pose proof (allow_ledger rl now key) as Hs. rewrite Hd in Hs. simpl in Hs.
  repeat split.
  - exact Hd.
  - exact Hs.
  - intros Hnone. rewrite Hs. unfold ledger. by rewrite Hnone.
  - intros cs. by apply calls_reject_nonpositive.
Qed.

Lemma allow_nonpositive_limit_witness :
  let rl := {| requests := ∅; limit := 0; window := Time.Minute |} in
  limit rl <= 0 /\
  (allow rl 7 "A").2 = false /\
  requests (allow rl 7 "A").1 !! "A" = Some [].
Proof.
  intros rl.
  assert (Hl : limit rl <= 0) by (simpl; lia).
  destruct (allow_nonpositive_limit rl 7 "A" Hl) as (Hd & _ & Hnew & _).
  split; [exact Hl|]. split; [exact Hd|].
  apply Hnew. reflexivity.
Defined.

(** C2, as the specification states it, fails: [newRateLimiter] with
    [limit = 0] and a window of one minute returns a limiter; nothing
    panics, neither the constructor nor the reaper's ticker, and the
    limiter answers calls (with a rejection). *)
Lemma newRateLimiter_accepts_zero_limit :
  (0 <= 0 \/ Time.Minute <= 0) /\
  newRateLimiter 0 Time.Minute
    = Returns {| requests := ∅; limit := 0; window := Time.Minute |} /\
  newRateLimiter 0 Time.Minute <> Panics /\
  Time.NewTicker Time.Minute = Returns tt /\
  (allow {| requests := ∅; limit := 0; window := Time.Minute |} 0 "A").2
    = false.
Proof.
  split; [left; lia|]. split; [reflexivity|]. split; [discriminate|].
  split; reflexivity.
Qed.

(** C2, amended. [newRateLimiter] checks nothing: for a non-positive limit
    and a positive window it returns a limiter with an empty map that holds
    the limit and the window as given; the reaper's ticker starts, and the
    limiter then rejects every call. *)
Theorem newRateLimiter_unchecked (limit0 window0 : Z) :
  limit0 <= 0 ->
  0 < window0 ->
  exists rl,
    newRateLimiter limit0 window0 = Returns rl /\
    requests rl = ∅ /\ limit rl = limit0 /\ window rl = window0 /\
    cleanup rl [] = Returns rl /\
    forall now key, (allow rl now key).2 = false.
Proof.
  intros Hl Hw. eexists. split; [reflexivity|]. simpl.
  repeat split.
  - unfold cleanup, Time.NewTicker. simpl.
    destruct (Z.leb_spec window0 0); [lia|done].
  - intros now key. by apply allow_rejects_nonpositive.
Qed.

Lemma newRateLimiter_unchecked_witness :
  -3 <= 0 /\ 0 < Time.Minute /\
  exists rl,
    newRateLimiter (-3) Time.Minute = Returns rl /\
    requests rl = ∅ /\ limit rl = -3 /\ window rl = Time.Minute /\
    cleanup rl [] = Returns rl /\
    forall now key, (allow rl now key).2 = false.
Proof.
  split; [lia|]. split; [reflexivity|].
  apply (newRateLimiter_unchecked (-3) Time.Minute); [lia|reflexivity].
Defined.

(** ** The scenario of the specification *)

(** C3. With [limit = 5] and a window of sixty seconds, from the empty
    limiter: six calls for ["A"] one millisecond apart from [t = 0] give
    five admissions and one rejection; a seventh call for ["A"] at
    [t = 61s] is admitted; a call for ["B"] at [t = 0] is admitted, before
    the burst, after it and after the seventh call. *)
Theorem scenario_five_per_minute :
  newRateLimiter 5 (60 * Time.Second) = Returns scenario_limiter /\
  (calls_for scenario_limiter "A" scenario_burst).2
    = [true; true; true; true; true; false] /\
  (let rl6 := (calls_for scenario_limiter "A" scenario_burst).1 in
   (allow rl6 (61 * Time.Second) "A").2 = true /\
   (allow rl6 0 "B").2 = true /\
   (allow (allow rl6 (61 * Time.Second) "A").1 0 "B").2 = true) /\
  (allow scenario_limiter 0 "B").2 = true.
Proof. repeat split; vm_compute; reflexivity. Qed.

(** ** Expiry *)

Lemma calls_app rl cs cs' :
  calls rl (cs ++ cs')
  = ((calls (calls rl cs).1 cs').1, (calls rl cs).2 ++ (calls (calls rl cs).1 cs').2).
Proof.
  revert rl. induction cs as [|[now key] cs IH]; intros rl.
  - simpl. by destruct (calls rl cs').
  - rewrite <- app_comm_cons, !calls_cons, IH. reflexivity.
Qed.

Lemma validRequests_app ws l l' :
  validRequests ws (l ++ l') = validRequests ws l ++ validRequests ws l'.
Proof. rewrite !validRequests_filter. apply List.filter_app. Qed.

(** An admitted call at [t0] is followed by an admitted call as soon as
    [t0] has left the window. *)
Lemma allow_after_admission rl t0 key now :
  (allow rl t0 key).2 = true ->
  t0 <= now - window rl ->
  (allow (allow rl t0 key).1 now key).2 = true.
Proof.
  intros Hadm Hexp.
  pose proof Hadm as Hlen. rewrite allow_decision in Hlen.
  apply negb_true_iff, Z.leb_gt in Hlen.
  rewrite allow_decision, allow_ledger', Hadm, allow_limit, allow_window.
  simpl. rewrite validRequests_app.
  rewrite (validRequests_none _ [t0]) by (repeat constructor; lia).
  rewrite app_nil_r.
  apply negb_true_iff, Z.leb_gt.
  pose proof (validRequests_length (now - window rl)
                (validRequests (t0 - window rl) (ledger rl key))).
  lia.
Qed.

(** C4. If [limit] calls for a key are made at [t0] and all are admitted,
    the next call for that key, at [t0 + window + eps] with [eps > 0], is
    admitted. *)
Theorem allow_after_window (rl : rateLimiter) (key : string) (t0 eps : Z) :
  1 <= limit rl ->
  (calls_for rl key (repeat t0 (Z.to_nat (limit rl)))).2
    = repeat true (Z.to_nat (limit rl)) ->
  0 < eps ->
  (allow (calls_for rl key (repeat t0 (Z.to_nat (limit rl)))).1
         (t0 + window rl + eps) key).2 = true.
Proof.
  intros Hlim Hall Heps.
  destruct (Z.to_nat (limit rl)) as [|n] eqn:Hn; [lia|].
  revert Hall. unfold calls_for.
  change (repeat t0 (S n)) with (t0 :: repeat t0 n).
  change (repeat true (S n)) with (true :: repeat true n).
  rewrite !repeat_cons, map_app, calls_app. simpl map.
  set (rl' := (calls rl (map (fun t => (t, key)) (repeat t0 n))).1).
  rewrite calls_cons. simpl. intros Hall.
  apply (f_equal (fun l => last l)) in Hall.
  rewrite !last_snoc in Hall. injection Hall as Hlast.
  apply allow_after_admission; [exact Hlast|].
  unfold rl'. rewrite calls_window. lia.
Qed.

Lemma allow_after_window_witness :
  let rl := {| requests := {[ "A" := [3] ]}; limit := 2; window := 10 |} in
  1 <= limit rl /\
  0 < 1 /\
  (calls_for rl "A" [20; 20]).2 = [true; true] /\
  (allow (calls_for rl "A" [20; 20]).1 31 "A").2 = true.
Proof.
  intros rl.
  assert (Hlim : 1 <= limit rl) by (simpl; lia).
  assert (Hall : (calls_for rl "A" (repeat 20 (Z.to_nat (limit rl)))).2
                 = repeat true (Z.to_nat (limit rl))) by reflexivity.
  assert (Heps : 0 < 1) by lia.
  split; [exact Hlim|]. split; [exact Heps|]. split; [exact Hall|].
  exact (allow_after_window rl "A" 20 1 Hlim Hall Heps).
Defined.

(** ** Admissions within one window *)

Lemma live_since_le_length lo ts : live_since lo ts <= Z.of_nat (length ts).
Proof.
  unfold live_since.
  pose proof (List.filter_length_le (fun t => lo <=? t) ts). lia.
Qed.

Lemma live_since_snoc lo ts t :
  lo <= t -> live_since lo (ts ++ [t]) = live_since lo ts + 1.
Proof.
  intros Ht. unfold live_since. rewrite List.filter_app. simpl.
  destruct (Z.leb_spec lo t); [|lia].
  rewrite length_app. simpl. lia.
Qed.

Lemma live_since_valid lo ws ts :
  ws < lo -> live_since lo (validRequests ws ts) = live_since lo ts.
Proof.
  intros Hws. unfold live_since. rewrite validRequests_filter. f_equal. f_equal.
  induction ts as [|t ts IH]; simpl; [done|].
  unfold Time.After at 1.
  destruct (Z.ltb_spec ws t), (Z.leb_spec lo t); simpl; try lia.
  - destruct (Z.leb_spec lo t); [|lia]. by rewrite IH.
  - destruct (Z.leb_spec lo t); [lia|]. exact IH.
  - exact IH.
Qed.

(** From any state: the calls admitted in a window starting at [lo], plus
    the timestamps at or after [lo] already in the ledger, stay within the
    limit (unless the ledger was above it to begin with). *)
Lemma admitted_bound rl key lo times :
  Forall (fun t => lo <= t < lo + window rl) times ->
  admitted (calls_for rl key times).2 + live_since lo (ledger rl key)
  <= Z.max (limit rl) (live_since lo (ledger rl key)).
Proof.
  revert rl. induction times as [|t times IH]; intros rl Hwin.
  - unfold calls_for, admitted. simpl. lia.
  - inversion Hwin as [|? ? Ht Htimes]; subst.
    rewrite calls_for_cons. simpl. rewrite admitted_cons.
    specialize (IH (allow rl t key).1).
    rewrite allow_window, allow_limit, allow_ledger' in IH.
    specialize (IH Htimes). simpl in IH.
    pose proof (allow_decision rl t key) as Hd.
    pose proof (live_since_le_length lo
                  (validRequests (t - window rl) (ledger rl key))) as Hlen.
    destruct (allow rl t key).2.
    + symmetry in Hd. apply negb_true_iff, Z.leb_gt in Hd.
      rewrite live_since_snoc, live_since_valid in IH by lia.
      rewrite live_since_valid in Hlen by lia. lia.
    + rewrite live_since_valid in IH by lia. lia.
Qed.

(** A ledger whose timestamps are all at or after [lo] loses nothing to
    pruning during a window starting at [lo]: the calls are admitted until
    the ledger holds [limit] timestamps, and rejected from then on. *)
Lemma calls_for_fill rl key lo times :
  Forall (fun t => lo <= t < lo + window rl) times ->
  Forall (fun t => lo <= t) (ledger rl key) ->
  forall (i : nat) (b : bool),
    (calls_for rl key times).2 !! i = Some b ->
    b = bool_decide (Z.of_nat (length (ledger rl key)) + Z.of_nat i < limit rl).
Proof.
  revert rl. induction times as [|t times IH]; intros rl Hwin Hlive i b.
  - unfold calls_for. simpl. by rewrite lookup_nil.
  - inversion Hwin as [|? ? Ht Htimes]; subst.
    rewrite calls_for_cons. simpl.
    assert (Hkeep : validRequests (t - window rl) (ledger rl key)
                    = ledger rl key).
    { apply validRequests_keep. eapply Forall_impl; [exact Hlive|].
      intros x Hx. simpl in Hx. lia. }
    pose proof (allow_decision rl t key) as Hd. rewrite Hkeep in Hd.
    specialize (IH (allow rl t key).1).
    rewrite allow_window, allow_limit, allow_ledger' in IH.
    simpl in IH. rewrite Hkeep in IH.
    specialize (IH Htimes).
    destruct i as [|j]; simpl.
    + intros [= <-]. rewrite Hd.
      destruct (Z.leb_spec (limit rl) (Z.of_nat (length (ledger rl key))));
        simpl; symmetry.
      * apply bool_decide_eq_false. lia.
      * apply bool_decide_eq_true. lia.
    + intros Hj.
      destruct (allow rl t key).2.
      * assert (Hlive' : Forall (fun x => lo <= x) (ledger rl key ++ [t])).
        { apply Forall_app. split; [exact Hlive|]. repeat constructor. lia. }
        rewrite (IH Hlive' j b Hj).
        rewrite length_app. simpl. apply bool_decide_ext. lia.
      * symmetry in Hd. apply negb_false_iff, Z.leb_le in Hd.
        rewrite (IH Hlive j b Hj).
        rewrite !bool_decide_eq_false_2 by lia. done.
Qed.

Lemma within_window_bounds w lo times :
  Forall (fun t => lo <= t < lo + w) times -> within_window w times.
Proof.
  intros Hall t t' Ht Ht'.
  rewrite Forall_forall in Hall.
  pose proof (Hall t Ht). pose proof (Hall t' Ht'). lia.
Qed.

Lemma sorted_window_bounds w t1 rest :
  Sorted Z.le (t1 :: rest) ->
  within_window w (t1 :: rest) ->
  Forall (fun t => t1 <= t < t1 + w) (t1 :: rest).
Proof.
  intros Hs Hw.
  apply Sorted_StronglySorted in Hs; [|intros x y z; lia].
  apply StronglySorted_inv in Hs as [_ Hge].
  assert (Hlt : forall t, t ∈ t1 :: rest -> t < t1 + w).
  { intros t Ht. apply Hw; [apply elem_of_cons; by left|exact Ht]. }
  constructor.
  - pose proof (Hlt t1 ltac:(apply elem_of_cons; by left)). lia.
  - rewrite Forall_forall. intros t Ht. split.
    + rewrite Forall_forall in Hge. by apply Hge.
    + apply Hlt. apply elem_of_cons. by right.
Qed.

(** C1, as the specification states it, fails.  With [limit = 5], a window
    of sixty seconds and [n = 6] calls one millisecond apart, [n - limit]
    is [1]; the first call is admitted -- and so is the second, should the
    calls be counted from zero. *)
Lemma early_calls_admitted :
  0 < limit scenario_limiter /\
  0 < window scenario_limiter /\
  Sorted Z.le scenario_burst /\
  within_window (window scenario_limiter) scenario_burst /\
  Z.of_nat (length scenario_burst) > limit scenario_limiter /\
  Z.of_nat (length scenario_burst) - limit scenario_limiter = 1 /\
  (calls_for scenario_limiter "A" scenario_burst).2 !! 0%nat = Some true /\
  (calls_for scenario_limiter "A" scenario_burst).2 !! 1%nat = Some true.
Proof.
  split; [reflexivity|]. split; [reflexivity|].
  split; [repeat constructor; vm_compute; discriminate|].
  split.
  { apply (within_window_bounds _ 0).
    repeat constructor; vm_compute; try discriminate; reflexivity. }
  split; [reflexivity|]. split; [reflexivity|].
  split; vm_compute; reflexivity.
Qed.

(** C1, amended.  For calls for one key at nondecreasing clock readings,
    any two of them less than [window] apart, on a limiter with
    [limit > 0] and [window > 0]: whatever the limiter held before, at most
    [limit] of the calls are admitted; and if what the key's ledger held
    before has expired by then, call number [i + 1] is admitted exactly
    when [i < limit] -- the first [limit] calls are admitted, call
    [limit + 1] and all later ones are rejected. *)
Theorem allow_window_quota (rl : rateLimiter) (key : string) (times : list Z) :
  0 < limit rl ->
  0 < window rl ->
  Sorted Z.le times ->
  within_window (window rl) times ->
  length (calls_for rl key times).2 = length times /\
  admitted (calls_for rl key times).2 <= limit rl /\
  (expired_before rl key times ->
   forall (i : nat) (b : bool),
     (calls_for rl key times).2 !! i = Some b ->
     b = bool_decide (Z.of_nat i < limit rl)).
Proof.
  intros Hlim Hwin Hs Hw.
  split. { unfold calls_for. by rewrite calls_length, length_map. }
  destruct times as [|t1 rest].
  { split; [unfold calls_for, admitted; simpl; lia|].
    intros _ i b. unfold calls_for. simpl. by rewrite lookup_nil. }
  pose proof (sorted_window_bounds _ _ _ Hs Hw) as Hb.
  split.
  - pose proof (admitted_bound rl key t1 (t1 :: rest) Hb).
    assert (0 <= live_since t1 (ledger rl key)) by (unfold live_since; lia).
    lia.
  - intros Hexp i b.
    apply Forall_cons_1 in Hexp as [Hexp _].
    apply Forall_cons_1 in Hb as [Ht1 Hrest].
    rewrite calls_for_cons. simpl.
    assert (Hd : (allow rl t1 key).2 = true).
    { rewrite allow_decision, (validRequests_none _ _ Hexp).
      apply negb_true_iff, Z.leb_gt. simpl. lia. }
    destruct i as [|j]; simpl.
    + intros [= <-]. rewrite Hd. symmetry. apply bool_decide_eq_true. lia.
    + intros Hj.
      pose proof (calls_for_fill (allow rl t1 key).1 key t1 rest) as Hfill.
      rewrite allow_window, allow_limit, allow_ledger', Hd in Hfill.
      simpl in Hfill. rewrite (validRequests_none _ _ Hexp) in Hfill.
      rewrite (Hfill Hrest ltac:(repeat constructor; lia) j b Hj).
      simpl. apply bool_decide_ext. lia.
Qed.

Lemma allow_window_quota_witness :
  0 < limit scenario_limiter /\
  0 < window scenario_limiter /\
  Sorted Z.le scenario_burst /\
  within_window (window scenario_limiter) scenario_burst /\
  expired_before scenario_limiter "A" scenario_burst /\
  admitted (calls_for scenario_limiter "A" scenario_burst).2
    <= limit scenario_limiter /\
  (calls_for scenario_limiter "A" scenario_burst).2 !! 5%nat = Some false.
Proof.
  assert (Hlim : 0 < limit scenario_limiter) by reflexivity.
  assert (Hwin : 0 < window scenario_limiter) by reflexivity.
  assert (Hs : Sorted Z.le scenario_burst).
  { repeat constructor; vm_compute; discriminate. }
  assert (Hw : within_window (window scenario_limiter) scenario_burst).
  { apply (within_window_bounds _ 0).
    repeat constructor; vm_compute; try discriminate; reflexivity. }
  assert (Hexp : expired_before scenario_limiter "A" scenario_burst).
  { repeat constructor. }
  destruct (allow_window_quota scenario_limiter "A" scenario_burst
              Hlim Hwin Hs Hw) as (Hlen & Hadm & Hnth).
  repeat (split; [assumption|]).
  assert (Hsome : is_Some
            ((calls_for scenario_limiter "A" scenario_burst).2 !! 5%nat)).
  { apply lookup_lt_is_Some. rewrite Hlen. vm_compute. lia. }
  destruct Hsome as [b Hb]. rewrite Hb.
  by rewrite (Hnth Hexp _ _ Hb).
Defined.

(** ** The reaper *)

(** What an entry becomes in a cycle: pruned, or dropped when nothing is
    left. *)
Lemma cleanup_key_same ws m key ts :
  cleanup_key ws m (key, ts) !! key
  = if decide (validRequests ws ts = []) then None
    else Some (validRequests ws ts).
Proof.
  unfold cleanup_key. simpl.
  destruct (validRequests ws ts) as [|t v]; simpl.
  - apply lookup_delete_eq.
  - apply lookup_insert_eq.
Qed.

Lemma cleanup_key_other ws m key ts key' :
  key ≠ key' -> cleanup_key ws m (key, ts) !! key' = m !! key'.
Proof.
  intros Hne. unfold cleanup_key. simpl.
  destruct (length (validRequests ws ts) =? 0)%nat.
  - by apply lookup_delete_ne.
  - by apply lookup_insert_ne.
Qed.

Lemma cleanup_fold_skip ws (entries : list (string * list Z)) m key :
  key ∉ entries.*1 ->
  fold_left (cleanup_key ws) entries m !! key = m !! key.
Proof.
  revert m. induction entries as [|[k ts] entries IH]; intros m Hnot; [done|].
  simpl in *. apply not_elem_of_cons in Hnot as [Hne Hnot].
  rewrite IH by done. by apply cleanup_key_other.
Qed.

Lemma cleanup_fold_visit ws (entries : list (string * list Z)) m key ts :
  NoDup entries.*1 ->
  (key, ts) ∈ entries ->
  fold_left (cleanup_key ws) entries m !! key
  = if decide (validRequests ws ts = []) then None
    else Some (validRequests ws ts).
Proof.
  revert m. induction entries as [|[k ts'] entries IH]; intros m Hnd Hin.
  - by apply elem_of_nil in Hin.
  - simpl in *. apply NoDup_cons in Hnd as [Hfresh Hnd].
    apply elem_of_cons in Hin as [[= <- <-]|Hin].
    + rewrite cleanup_fold_skip by done. apply cleanup_key_same.
    + by apply IH.
Qed.

Lemma cleanup_cycle_lookup rl now key :
  requests (cleanup_cycle rl now) !! key
  = match requests rl !! key with
    | Some ts =>
        if decide (validRequests (now - window rl) ts = []) then None
        else Some (validRequests (now - window rl) ts)
    | None => None
    end.
Proof.
  unfold cleanup_cycle, Time.Add. simpl.
  replace (now + - window rl) with (now - window rl) by lia.
  destruct (requests rl !! key) as [ts|] eqn:Hk.
  - apply cleanup_fold_visit.
    + apply NoDup_fst_map_to_list.
    + by apply elem_of_map_to_list.
  - rewrite cleanup_fold_skip; [done|].
    intros Hin. apply list_elem_of_fmap in Hin as ([k ts] & -> & Hin).
    apply elem_of_map_to_list in Hin. simpl in Hk. congruence.
Qed.

Lemma validRequests_ltb ws reqs :
  validRequests ws reqs = List.filter (fun t => ws <? t) reqs.
Proof. apply validRequests_filter. Qed.

Lemma filter_nonempty (p : Z -> bool) (l : list Z) :
  List.filter p l <> [] <-> exists x, x ∈ l /\ p x = true.
Proof.
  split.
  - destruct (List.filter p l) as [|x kept] eqn:Hf; [done|]. intros _.
    assert (Hin : In x (List.filter p l)) by (rewrite Hf; by left).
    apply filter_In in Hin as [Hin Hp]. exists x.
    split; [by apply list_elem_of_In|exact Hp].
  - intros (x & Hin & Hp) He.
    assert (Hx : In x (List.filter p l)).
    { apply filter_In. split; [by apply list_elem_of_In|exact Hp]. }
    by rewrite He in Hx.
Qed.

(** C7. A reaper cycle at clock reading [now] turns every entry into its
    ledger filtered to the timestamps strictly after [now - window], in
    order -- the filter that [allow] applies to the ledger of its key
    before deciding -- and deletes exactly the entries for which nothing is
    left.  So a timestamp is in the ledger kept for a key exactly when it
    was in the key's ledger and is after [now - window]; a key is in the
    map afterwards exactly when its ledger had such a timestamp; a key
    whose timestamps had all expired is gone; no key is added. *)
Theorem cleanup_cycle_prunes_and_evicts (rl : rateLimiter) (now : Z) (key : string) :
  requests (cleanup_cycle rl now) !! key
  = match requests rl !! key with
    | Some ts =>
        if decide (List.filter (fun t => now - window rl <? t) ts = [])
        then None
        else Some (List.filter (fun t => now - window rl <? t) ts)
    | None => None
    end /\
  requests (allow rl now key).1 !! key
  = Some (List.filter (fun t => now - window rl <? t) (ledger rl key)
          ++ (if (allow rl now key).2 then [now] else [])) /\
  (forall ts', requests (cleanup_cycle rl now) !! key = Some ts' ->
     ts' = validRequests (now - window rl) (ledger rl key) /\
     ts' <> [] /\
     Forall (fun t => now - window rl < t) ts' /\
     (forall x, x ∈ ts' <-> x ∈ ledger rl key /\ now - window rl < x)) /\
  (is_Some (requests (cleanup_cycle rl now) !! key) <->
   exists x, x ∈ ledger rl key /\ now - window rl < x) /\
  (forall ts, requests rl !! key = Some ts ->
     Forall (fun t => t <= now - window rl) ts ->
     requests (cleanup_cycle rl now) !! key = None) /\
  (requests (cleanup_cycle rl now) !! key = None <->
   validRequests (now - window rl) (ledger rl key) = []) /\
  limit (cleanup_cycle rl now) = limit rl /\
  window (cleanup_cycle rl now) = window rl.
Proof.
  pose proof (cleanup_cycle_lookup rl now key) as Hlk.
  assert (Hmem : forall ts x,
            x ∈ List.filter (fun t => now - window rl <? t) ts
            <-> x ∈ ts /\ now - window rl < x).
  { intros ts x. rewrite !list_elem_of_In, filter_In, Z.ltb_lt. done. }
  split.
  { rewrite Hlk. destruct (requests rl !! key) as [ts|]; [|done].
    by rewrite validRequests_ltb. }
  split.
  { rewrite allow_ledger, validRequests_ltb. simpl.
    destruct (allow rl now key).2; [done|by rewrite app_nil_r]. }
  rewrite Hlk. clear Hlk. unfold ledger.
  destruct (requests rl !! key) as [ts|] eqn:Hk.
  - change (default [] (Some ts)) with ts.
    rewrite validRequests_ltb.
    pose proof (filter_nonempty (fun t => now - window rl <? t) ts) as Hne.
    destruct (decide (List.filter (fun t => now - window rl <? t) ts = []))
      as [He|Hn].
    + split; [done|]. split.
      { split; [by intros [? ?]|]. intros (x & Hin & Hx).
        exfalso. apply (proj2 Hne); [|exact He].
        exists x. split; [exact Hin|]. by apply Z.ltb_lt. }
      split; [done|]. split; [done|]. done.
    + split.
      { intros ts' [= <-]. split; [done|]. split; [done|]. split.
        - rewrite <- validRequests_ltb. apply validRequests_after.
        - apply Hmem. }
      split.
      { split; [|eauto]. intros _.
        destruct (proj1 Hne Hn) as (x & Hin & Hx).
        exists x. split; [exact Hin|]. by apply Z.ltb_lt. }
      split.
      { intros ts0 [= <-] Hall. exfalso. apply Hn.
        rewrite <- validRequests_ltb. by apply validRequests_none. }
      split; [|done]. split; [done|]. intros He. by rewrite He in Hn.
  - simpl. split; [done|]. split.
    { split; [by intros [? ?]|]. intros (x & Hin & _).
      by apply elem_of_nil in Hin. }
    split; [done|]. split; [done|]. done.
Qed.

(** ** Invariants of the stored ledgers *)

Lemma stamped_by_ledger rl t key :
  stamped_by rl t -> Forall (fun x => x <= t) (ledger rl key).
Proof.
  intros Hst. unfold ledger.
  destruct (requests rl !! key) as [ts|] eqn:Hk; simpl; [|constructor].
  by apply (Hst key).
Qed.

Lemma Forall_le_mono (ts : list Z) (t t' : Z) :
  t <= t' -> Forall (fun x => x <= t) ts -> Forall (fun x => x <= t') ts.
Proof.
  intros Hle Hall. eapply Forall_impl; [exact Hall|].
  intros x Hx. simpl in Hx. lia.
Qed.

Lemma stamped_by_mono rl t t' : t <= t' -> stamped_by rl t -> stamped_by rl t'.
Proof. intros Hle Hst key ts Hk. eapply Forall_le_mono; [exact Hle|eauto]. Qed.

Lemma allow_stamped rl prev now key :
  stamped_by rl prev -> prev <= now -> stamped_by (allow rl now key).1 now.
Proof.
  intros Hst Hle key' ts.
  destruct (decide (key = key')) as [<-|Hne].
  - rewrite allow_ledger. intros [= <-].
    assert (Hv : Forall (fun x => x <= now)
                   (validRequests (now - window rl) (ledger rl key))).
    { apply validRequests_Forall.
      apply (Forall_le_mono _ prev); [exact Hle|].
      by apply stamped_by_ledger. }
    simpl. destruct (allow rl now key).2; [|exact Hv].
    apply Forall_app. split; [exact Hv|]. repeat constructor. lia.
  - rewrite allow_other by done. intros Hk.
    apply (Forall_le_mono _ prev); [exact Hle|]. by apply (Hst key').
Qed.

Lemma cleanup_cycle_stamped rl prev now :
  stamped_by rl prev -> prev <= now -> stamped_by (cleanup_cycle rl now) now.
Proof.
  intros Hst Hle key ts'. rewrite cleanup_cycle_lookup.
  destruct (requests rl !! key) as [ts|] eqn:Hk; [|done].
  destruct (decide _); [done|]. intros [= <-].
  apply validRequests_Forall.
  apply (Forall_le_mono _ prev); [exact Hle|]. by apply (Hst key).
Qed.

Lemma step_stamped rl prev e :
  stamped_by rl prev -> prev <= at_time e -> stamped_by (step rl e) (at_time e).
Proof.
  destruct e as [now key|now]; simpl.
  - apply allow_stamped.
  - apply cleanup_cycle_stamped.
Qed.

Lemma reachable_stamped rl t : reachable rl t -> stamped_by rl t.
Proof.
  induction 1 as [limit0 window0 rl t Hnew|rl t e t' _ IH Hle Hle'].
  - injection Hnew as <-. intros key ts. simpl. by rewrite lookup_empty.
  - apply (stamped_by_mono _ (at_time e)); [exact Hle'|].
    by apply (step_stamped _ t).
Qed.

Lemma step_limit rl e : limit (step rl e) = limit rl.
Proof. destruct e; simpl; [apply allow_limit|done]. Qed.

Lemma allow_bounded_sorted rl prev now key :
  0 <= limit rl ->
  bounded_sorted rl -> stamped_by rl prev -> prev <= now ->
  bounded_sorted (allow rl now key).1.
Proof.
  intros Hlim Hinv Hst Hle key' ts. rewrite allow_limit.
  destruct (decide (key = key')) as [<-|Hne].
  - rewrite allow_ledger. intros [= <-]. simpl.
    pose proof (allow_decision rl now key) as Hd.
    assert (Hsorted : Sorted Z.le
                        (validRequests (now - window rl) (ledger rl key))).
    { apply validRequests_Sorted. unfold ledger.
      destruct (requests rl !! key) as [ts|] eqn:Hk; simpl; [|constructor].
      by apply (Hinv key). }
    destruct (allow rl now key).2.
    + symmetry in Hd. apply negb_true_iff, Z.leb_gt in Hd. split.
      * rewrite length_app. simpl. lia.
      * apply Sorted_snoc; [exact Hsorted|].
        apply validRequests_Forall.
        apply (Forall_le_mono _ prev); [exact Hle|].
        by apply stamped_by_ledger.
    + symmetry in Hd. apply negb_false_iff, Z.leb_le in Hd. split.
      * pose proof (validRequests_length (now - window rl) (ledger rl key)).
        unfold ledger in *.
        destruct (requests rl !! key) as [ts|] eqn:Hk; simpl in *; [|lia].
        destruct (Hinv key ts Hk). lia.
      * exact Hsorted.
  - rewrite allow_other by done. apply Hinv.
Qed.

Lemma cleanup_cycle_bounded_sorted rl now :
  bounded_sorted rl -> bounded_sorted (cleanup_cycle rl now).
Proof.
  intros Hinv key ts'. rewrite cleanup_cycle_lookup.
  destruct (requests rl !! key) as [ts|] eqn:Hk; [|done].
  destruct (decide _); [done|]. intros [= <-].
  destruct (Hinv key ts Hk) as [Hlen Hs]. split.
  - pose proof (validRequests_length (now - window rl) ts).
    change (limit (cleanup_cycle rl now)) with (limit rl). lia.
  - by apply validRequests_Sorted.
Qed.

Lemma step_bounded_sorted rl prev e :
  0 <= limit rl ->
  bounded_sorted rl -> stamped_by rl prev -> prev <= at_time e ->
  bounded_sorted (step rl e).
Proof.
  destruct e as [now key|now]; simpl.
  - apply allow_bounded_sorted.
  - intros _ Hinv _ _. by apply cleanup_cycle_bounded_sorted.
Qed.

(** Every limiter an execution can produce satisfies both. *)
Lemma reachable_bounded_sorted rl t :
  reachable rl t -> 0 <= limit rl -> bounded_sorted rl.
Proof.
  induction 1 as [limit0 window0 rl t Hnew|rl t e t' Hr IH Hle Hle'].
  - injection Hnew as <-. intros _ key ts. simpl. by rewrite lookup_empty.
  - rewrite step_limit. intros Hlim.
    apply (step_bounded_sorted _ t); auto using reachable_stamped.
Qed.

(** C10. On a limiter with [limit >= 1], every step -- a call of [allow]
    for any key, or a reaper cycle -- taken at a clock reading [now] that is
    not before the earlier readings (so no stored timestamp is later than
    [now]) keeps every stored ledger within [limit] entries and in
    nondecreasing order, given that this held before the step; and the
    stored timestamps are again not later than the clock. *)
Theorem step_preserves_invariant (rl : rateLimiter) (prev : Z) (e : event) :
  1 <= limit rl ->
  bounded_sorted rl ->
  stamped_by rl prev ->
  prev <= at_time e ->
  bounded_sorted (step rl e) /\
  stamped_by (step rl e) (at_time e) /\
  limit (step rl e) = limit rl.
Proof.
  intros Hlim Hinv Hst Hle. split; [|split].
  - apply (step_bounded_sorted _ prev); [lia|done..].
  - by apply (step_stamped _ prev).
  - apply step_limit.
Qed.

Lemma step_preserves_invariant_witness :
  let rl := {| requests := {[ "A" := [1; 2] ]}; limit := 2; window := 10 |} in
  1 <= limit rl /\
  bounded_sorted rl /\
  stamped_by rl 2 /\
  2 <= at_time (Allow 11 "A") /\
  bounded_sorted (step rl (Allow 11 "A")) /\
  stamped_by (step rl (Allow 11 "A")) 11 /\
  requests (step rl (Allow 11 "A")) !! "A" = Some [2; 11].
Proof.
  intros rl.
  assert (Hlim : 1 <= limit rl) by (simpl; lia).
  assert (Hinv : bounded_sorted rl).
  { intros key ts Hk. simpl in Hk.
    apply lookup_singleton_Some in Hk as [_ <-].
    split; [simpl; lia|repeat constructor; lia]. }
  assert (Hst : stamped_by rl 2).
  { intros key ts Hk. simpl in Hk.
    apply lookup_singleton_Some in Hk as [_ <-].
    repeat constructor; lia. }
  assert (Hle : 2 <= at_time (Allow 11 "A")) by (simpl; lia).
  destruct (step_preserves_invariant rl 2 (Allow 11 "A") Hlim Hinv Hst Hle)
    as (Hinv' & Hst' & _).
  repeat (split; [assumption|]). reflexivity.
Defined.

(** C5. After a call of [allow] for a key at clock reading [now] -- in any
    execution whose clock readings are nondecreasing, on a limiter whose
    window is not negative -- the ledger stored for the key holds only
    timestamps in [[now - window, now]] (indeed after [now - window]),
    whether the call was admitted or rejected: a rejected call stores the
    pruned ledger, an admitted call the pruned ledger followed by [now]. *)
Theorem allow_stores_pruned (rl : rateLimiter) (t now : Z) (key : string) :
  reachable rl t ->
  t <= now ->
  0 <= window rl ->
  exists ts,
    requests (allow rl now key).1 !! key = Some ts /\
    Forall (fun x => now - window rl <= x <= now) ts /\
    Forall (fun x => now - window rl < x \/ x = now) ts /\
    ts = validRequests (now - window rl) (ledger rl key)
         ++ (if (allow rl now key).2 then [now] else []).
Proof.
  intros Hr Hle Hwin. eexists. split; [apply allow_ledger|].
  pose proof (allow_stamped rl t now key (reachable_stamped _ _ Hr) Hle
                key _ (allow_ledger rl now key)) as Hup.
  simpl in *.
  assert (Hlo : Forall (fun x => now - window rl < x \/ x = now)
    (if (allow rl now key).2
     then validRequests (now - window rl) (ledger rl key) ++ [now]
     else validRequests (now - window rl) (ledger rl key))).
  { assert (Hv : Forall (fun x => now - window rl < x \/ x = now)
                   (validRequests (now - window rl) (ledger rl key))).
    { eapply Forall_impl; [apply validRequests_after|].
      intros x Hx. simpl in Hx. left. exact Hx. }
    destruct (allow rl now key).2; [|exact Hv].
    apply Forall_app. split; [exact Hv|]. constructor; [|constructor]. right. reflexivity. }
  split; [|split; [exact Hlo|]].
  - rewrite Forall_forall in Hup, Hlo. rewrite Forall_forall.
    intros x Hx. specialize (Hup x Hx). specialize (Hlo x Hx).
    simpl in *. lia.
  - destruct (allow rl now key).2; [done|by rewrite app_nil_r].
Qed.

Lemma allow_stores_pruned_witness :
  let rl := step {| requests := ∅; limit := 1; window := 10 |} (Allow 0 "A") in
  reachable rl 0 /\
  0 <= 4 /\
  0 <= window rl /\
  (allow rl 4 "A").2 = false /\
  exists ts,
    requests (allow rl 4 "A").1 !! "A" = Some ts /\
    Forall (fun x => 4 - window rl <= x <= 4) ts.
Proof.
  intros rl.
  assert (Hr : reachable rl 0).
  { apply (reach_step _ 0 (Allow 0 "A") 0).
    - by apply (reach_new 1 10).
    - simpl; lia.
    - simpl; lia. }
  assert (Hle : 0 <= 4) by lia.
  assert (Hwin : 0 <= window rl) by (vm_compute; discriminate).
  destruct (allow_stores_pruned rl 0 4 "A" Hr Hle Hwin)
    as (ts & Hk & Hin & _ & _).
  split; [exact Hr|]. split; [exact Hle|]. split; [exact Hwin|].
  split; [reflexivity|].
  exists ts. split; [exact Hk|exact Hin].
Defined.

(** * Further properties of the limiter *)

(** ** Pruning twice, and what a reaper cycle leaves *)

Lemma filter_filter_implied (p q : Z -> bool) (l : list Z) :
  (forall x, q x = true -> p x = true) ->
  List.filter q (List.filter p l) = List.filter q l.
Proof.
  intros Himp. induction l as [|x l IH]; simpl; [done|].
  destruct (p x) eqn:Hp, (q x) eqn:Hq; simpl; rewrite ?Hq, ?IH; try done.
  apply Himp in Hq. congruence.
Qed.

Lemma validRequests_twice ws ws' reqs :
  ws <= ws' ->
  validRequests ws' (validRequests ws reqs) = validRequests ws' reqs.
Proof.
  intros Hle. rewrite !validRequests_filter.
  apply filter_filter_implied. intros x. unfold Time.After.
  rewrite !Z.ltb_lt. lia.
Qed.

Lemma cleanup_cycle_ledger rl now key :
  ledger (cleanup_cycle rl now) key
  = validRequests (now - window rl) (ledger rl key).
Proof.
  unfold ledger. rewrite cleanup_cycle_lookup.
  destruct (requests rl !! key) as [ts|]; [|done].
  change (default [] (Some ts)) with ts.
  by destruct (decide (validRequests (now - window rl) ts = [])) as [->|].
Qed.

Lemma rateLimiter_eq (a b : rateLimiter) :
  requests a = requests b -> limit a = limit b -> window a = window b -> a = b.
Proof. destruct a, b. simpl. by intros -> -> ->. Qed.

(** X1. A later reaper cycle subsumes an earlier one: two cycles at clock
    readings [now <= now'] leave exactly the limiter that the single cycle
    at [now'] leaves.  In particular a cycle repeated at the same reading
    changes nothing. *)
Theorem cleanup_cycle_absorbs (rl : rateLimiter) (now now' : Z) :
  now <= now' ->
  cleanup_cycle (cleanup_cycle rl now) now' = cleanup_cycle rl now'.
Proof.
  intros Hle. apply rateLimiter_eq; [|done..].
  apply map_eq. intros key. rewrite !cleanup_cycle_lookup.
  change (window (cleanup_cycle rl now)) with (window rl).
  destruct (requests rl !! key) as [ts|]; [|done].
  pose proof (validRequests_twice (now - window rl) (now' - window rl) ts
                ltac:(lia)) as Htw.
  destruct (decide (validRequests (now - window rl) ts = [])) as [He|Hne].
  - rewrite He in Htw. rewrite <- Htw. by rewrite decide_True.
  - by rewrite Htw.
Qed.

Lemma cleanup_cycle_absorbs_witness :
  let rl := {| requests := {[ "A" := [1; 8]; "B" := [2] ]};
               limit := 3; window := 10 |} in
  12 <= 15 /\
  cleanup_cycle (cleanup_cycle rl 12) 15 = cleanup_cycle rl 15 /\
  requests (cleanup_cycle rl 15) !! "A" = Some [8] /\
  requests (cleanup_cycle rl 15) !! "B" = None.
Proof.
  intros rl.
  assert (Hle : 12 <= 15) by lia.
  split; [exact Hle|]. split.
  - exact (cleanup_cycle_absorbs rl 12 15 Hle).
  - split; vm_compute; reflexivity.
Defined.

(** X2. [allow] gives its key an entry and touches no other: the keys of
    the map afterwards are the keys before together with the key of the
    call, whether the call was admitted or not.  A reaper cycle adds no
    key, and keeps exactly the keys whose ledger holds a timestamp after
    [now - window]. *)
Theorem map_keys_after_step (rl : rateLimiter) (now : Z) (key : string) :
  dom (requests (allow rl now key).1) = {[ key ]} ∪ dom (requests rl) /\
  dom (requests (cleanup_cycle rl now)) ⊆ dom (requests rl) /\
  (forall k, k ∈ dom (requests (cleanup_cycle rl now)) <->
             exists x, x ∈ ledger rl k /\ now - window rl < x).
Proof.
  split; [|split].
  - unfold allow. destruct (limit rl <=? _); simpl; apply dom_insert_L.
  - intros k. rewrite !elem_of_dom, cleanup_cycle_lookup.
    destruct (requests rl !! k) as [ts|]; [eauto|].
    by intros [? ?].
  - intros k. rewrite elem_of_dom, cleanup_cycle_lookup. unfold ledger.
    destruct (requests rl !! k) as [ts|]; simpl.
    + rewrite validRequests_ltb.
      pose proof (filter_nonempty (fun t => now - window rl <? t) ts) as Hne.
      setoid_rewrite Z.ltb_lt in Hne. rewrite <- Hne.
      destruct (decide (List.filter (fun t => now - window rl <? t) ts = []))
        as [He|Hn].
      * split; [by intros [? ?]|done].
      * split; [done|eauto].
    + split; [by intros [? ?]|]. intros (x & Hin & _).
      by apply elem_of_nil in Hin.
Qed.

(** ** After a window without activity *)

(** X3. In an execution with nondecreasing clock readings, on a limiter
    with [limit >= 1] and a positive window: a call made a full window or
    more after the last step is admitted, for every key, and leaves the
    key's ledger holding that call alone -- whatever was rejected before. *)
Theorem allow_after_idle (rl : rateLimiter) (t now : Z) (key : string) :
  reachable rl t ->
  1 <= limit rl ->
  0 < window rl ->
  t <= now - window rl ->
  (allow rl now key).2 = true /\
  requests (allow rl now key).1 !! key = Some [now].
Proof.
  intros Hr Hlim _ Hidle.
  assert (Hnone : validRequests (now - window rl) (ledger rl key) = []).
  { apply validRequests_none.
    apply (Forall_le_mono _ t); [exact Hidle|].
    apply stamped_by_ledger. by apply reachable_stamped. }
  assert (Hd : (allow rl now key).2 = true).
  { rewrite allow_decision, Hnone. apply negb_true_iff, Z.leb_gt. simpl. lia. }
  split; [exact Hd|].
  by rewrite allow_ledger, Hd, Hnone.
Qed.

Lemma allow_after_idle_witness :
  let rl := step (step (step {| requests := ∅; limit := 1; window := 10 |}
                  (Allow 0 "A")) (Allow 3 "A")) (Allow 5 "A") in
  reachable rl 5 /\
  1 <= limit rl /\
  0 < window rl /\
  5 <= 15 - window rl /\
  (allow rl 9 "A").2 = false /\
  (allow rl 15 "A").2 = true.
Proof.
  intros rl.
  assert (Hr : reachable rl 5).
  { apply (reach_step _ 3 (Allow 5 "A") 5); [|simpl; lia..].
    apply (reach_step _ 0 (Allow 3 "A") 3); [|simpl; lia..].
    apply (reach_step _ 0 (Allow 0 "A") 0); [|simpl; lia..].
    by apply (reach_new 1 10). }
  assert (Hlim : 1 <= limit rl) by (vm_compute; discriminate).
  assert (Hwin : 0 < window rl) by reflexivity.
  assert (Hidle : 5 <= 15 - window rl) by (vm_compute; discriminate).
  split; [exact Hr|]. split; [exact Hlim|]. split; [exact Hwin|].
  split; [exact Hidle|]. split; [reflexivity|].
  exact (proj1 (allow_after_idle rl 5 15 "A" Hr Hlim Hwin Hidle)).
Defined.

(** X4. In an execution with nondecreasing clock readings, a reaper cycle
    that runs a full window or more after the last step leaves the map
    empty: no key outlives one idle window and one cycle. *)
Theorem cleanup_cycle_after_idle (rl : rateLimiter) (t now : Z) :
  reachable rl t ->
  t <= now - window rl ->
  requests (cleanup_cycle rl now) = ∅.
Proof.
  intros Hr Hidle. apply map_eq. intros key.
  rewrite cleanup_cycle_lookup, lookup_empty.
  destruct (requests rl !! key) as [ts|] eqn:Hk; [|done].
  rewrite decide_True; [done|].
  apply validRequests_none.
  apply (Forall_le_mono _ t); [exact Hidle|].
  by apply (reachable_stamped _ _ Hr key).
Qed.

Lemma cleanup_cycle_after_idle_witness :
  let rl := step (step (step {| requests := ∅; limit := 2; window := 10 |}
                  (Allow 0 "A")) (Allow 3 "B")) (Allow 5 "A") in
  reachable rl 5 /\
  5 <= 15 - window rl /\
  size (requests rl) = 2%nat /\
  requests (cleanup_cycle rl 15) = ∅.
Proof.
  intros rl.
  assert (Hr : reachable rl 5).
  { apply (reach_step _ 3 (Allow 5 "A") 5); [|simpl; lia..].
    apply (reach_step _ 0 (Allow 3 "B") 3); [|simpl; lia..].
    apply (reach_step _ 0 (Allow 0 "A") 0); [|simpl; lia..].
    by apply (reach_new 2 10). }
  assert (Hidle : 5 <= 15 - window rl) by (vm_compute; discriminate).
  split; [exact Hr|]. split; [exact Hidle|].
  split; [vm_compute; reflexivity|].
  exact (cleanup_cycle_after_idle rl 5 15 Hr Hidle).
Defined.

(** ** What every execution keeps *)

Lemma reachable_sorted rl t :
  reachable rl t ->
  forall key ts, requests rl !! key = Some ts -> Sorted Z.le ts.
Proof.
  induction 1 as [limit0 window0 rl t Hnew|rl t e t' Hr IH Hle Hle'].
  - injection Hnew as <-. intros key ts. simpl. by rewrite lookup_empty.
  - pose proof (reachable_stamped _ _ Hr) as Hst.
    destruct e as [now key|now]; unfold step; simpl in Hle; intros key' ts.
    + destruct (decide (key = key')) as [<-|Hne].
      * rewrite allow_ledger. intros [= <-]. simpl.
        assert (Hsorted : Sorted Z.le
                  (validRequests (now - window rl) (ledger rl key))).
        { apply validRequests_Sorted. unfold ledger.
          destruct (requests rl !! key) as [ts|] eqn:Hk; simpl; [|constructor].
          by apply (IH key). }
        destruct (allow rl now key).2; [|exact Hsorted].
        apply Sorted_snoc; [exact Hsorted|].
        apply validRequests_Forall.
        apply (Forall_le_mono _ t); [exact Hle|].
        by apply stamped_by_ledger.
      * rewrite allow_other by done. apply IH.
    + rewrite cleanup_cycle_lookup.
      destruct (requests rl !! key') as [ts0|] eqn:Hk; [|done].
      destruct (decide _); [done|]. intros [= <-].
      apply validRequests_Sorted. by apply (IH key').
Qed.

Lemma reachable_limit_nonempty rl t :
  reachable rl t ->
  1 <= limit rl ->
  forall key ts, requests rl !! key = Some ts -> ts <> [].
Proof.
  induction 1 as [limit0 window0 rl t Hnew|rl t e t' Hr IH Hle Hle'].
  - injection Hnew as <-. intros _ key ts. simpl. by rewrite lookup_empty.
  - rewrite step_limit. intros Hlim.
    destruct e as [now key|now]; unfold step; intros key' ts.
    + destruct (decide (key = key')) as [<-|Hne].
      * rewrite allow_ledger. intros [= <-]. simpl.
        pose proof (allow_decision rl now key) as Hd.
        destruct (allow rl now key).2.
        -- intros Habs. by apply app_eq_nil in Habs as [_ ?].
        -- symmetry in Hd. apply negb_false_iff, Z.leb_le in Hd.
           intros Habs. rewrite Habs in Hd. simpl in Hd. lia.
      * rewrite allow_other by done. by apply IH.
    + rewrite cleanup_cycle_lookup.
      destruct (requests rl !! key') as [ts0|]; [|done].
      destruct (decide _); [done|]. by intros [= <-].
Qed.

(** X5. Every limiter that an execution with nondecreasing clock readings
    produces from [newRateLimiter] with [limit >= 1] stores, under each key
    of its map, a ledger that is not empty, has at most [limit] entries, is
    in nondecreasing order and holds no timestamp later than the clock: a
    key is in the map only while it carries an admitted call. *)
Theorem reachable_ledgers (rl : rateLimiter) (t : Z) (key : string) (ts : list Z) :
  reachable rl t ->
  1 <= limit rl ->
  requests rl !! key = Some ts ->
  ts <> [] /\
  Z.of_nat (length ts) <= limit rl /\
  Sorted Z.le ts /\
  Forall (fun x => x <= t) ts.
Proof.
  intros Hr Hlim Hk. split; [|split; [|split]].
  - by apply (reachable_limit_nonempty _ _ Hr Hlim key).
  - by apply (reachable_bounded_sorted _ _ Hr ltac:(lia) key).
  - by apply (reachable_sorted _ _ Hr key).
  - by apply (reachable_stamped _ _ Hr key).
Qed.

Lemma reachable_ledgers_witness :
  let rl := step (step (step {| requests := ∅; limit := 2; window := 10 |}
                  (Allow 0 "A")) (Allow 3 "A")) (Allow 5 "A") in
  reachable rl 5 /\
  1 <= limit rl /\
  requests rl !! "A" = Some [0; 3] /\
  [0; 3] <> [] /\ Z.of_nat (length [0; 3]) <= limit rl.
Proof.
  intros rl.
  assert (Hr : reachable rl 5).
  { apply (reach_step _ 3 (Allow 5 "A") 5); [|simpl; lia..].
    apply (reach_step _ 0 (Allow 3 "A") 3); [|simpl; lia..].
    apply (reach_step _ 0 (Allow 0 "A") 0); [|simpl; lia..].
    by apply (reach_new 2 10). }
  assert (Hlim : 1 <= limit rl) by (vm_compute; discriminate).
  assert (Hk : requests rl !! "A" = Some [0; 3]) by reflexivity.
  destruct (reachable_ledgers rl 5 "A" [0; 3] Hr Hlim Hk) as (Hne & Hlen & _).
  split; [exact Hr|]. split; [exact Hlim|]. split; [exact Hk|].
  split; [exact Hne|exact Hlen].
Defined.

Lemma sorted_expired_prefix ws (l : list Z) :
  Sorted Z.le l ->
  exists expired,
    l = expired ++ validRequests ws l /\ Forall (fun x => x <= ws) expired.
Proof.
  intros Hs. apply Sorted_StronglySorted in Hs; [|intros x y z; lia].
  induction Hs as [|x l _ IH Hall].
  - by exists [].
  - rewrite validRequests_cons. unfold Time.After.
    destruct (Z.ltb_spec ws x).
    + exists []. split; [|constructor]. simpl. f_equal. symmetry.
      apply validRequests_keep.
      eapply Forall_impl; [exact Hall|]. intros y Hy. simpl in Hy. lia.
    + destruct IH as (expired & Heq & Hexp).
      exists (x :: expired). split.
      * simpl. by rewrite <- Heq.
      * by constructor.
Qed.

(** X6. In every execution with nondecreasing clock readings, pruning a
    stored ledger removes a leading block and nothing else: the ledger is
    a run of expired timestamps followed by exactly what the pruning loop
    keeps, for any window start. *)
Theorem reachable_prune_is_suffix (rl : rateLimiter) (t ws : Z) (key : string) :
  reachable rl t ->
  exists expired,
    ledger rl key = expired ++ validRequests ws (ledger rl key) /\
    Forall (fun x => x <= ws) expired /\
    Forall (fun x => ws < x) (validRequests ws (ledger rl key)).
Proof.
  intros Hr.
  assert (Hs : Sorted Z.le (ledger rl key)).
  { unfold ledger.
    destruct (requests rl !! key) as [ts|] eqn:Hk; simpl; [|constructor].
    by apply (reachable_sorted _ _ Hr key). }
  destruct (sorted_expired_prefix ws _ Hs) as (expired & Heq & Hexp).
  exists expired. split; [exact Heq|]. split; [exact Hexp|].
  apply validRequests_after.
Qed.

Lemma reachable_prune_is_suffix_witness :
  let rl := step (step (step {| requests := ∅; limit := 3; window := 10 |}
                  (Allow 0 "A")) (Allow 3 "A")) (Allow 5 "A") in
  reachable rl 5 /\
  ledger rl "A" = [0; 3; 5] /\
  exists expired,
    ledger rl "A" = expired ++ validRequests 3 (ledger rl "A") /\
    Forall (fun x => x <= 3) expired.
Proof.
  intros rl.
  assert (Hr : reachable rl 5).
  { apply (reach_step _ 3 (Allow 5 "A") 5); [|simpl; lia..].
    apply (reach_step _ 0 (Allow 3 "A") 3); [|simpl; lia..].
    apply (reach_step _ 0 (Allow 0 "A") 0); [|simpl; lia..].
    by apply (reach_new 3 10). }
  destruct (reachable_prune_is_suffix rl 5 3 "A" Hr) as (expired & Heq & Hexp & _).
  split; [exact Hr|]. split; [reflexivity|].
  exists expired. split; [exact Heq|exact Hexp].
Defined.

(** ** Runs with other keys and the reaper in between *)

Lemma allow_ledger_other rl now key key' :
  key ≠ key' -> ledger (allow rl now key).1 key' = ledger rl key'.
Proof. intros Hne. unfold ledger. by rewrite allow_other. Qed.

Lemma step_window rl e : window (step rl e) = window rl.
Proof. destruct e; simpl; [apply allow_window|done]. Qed.

Lemma admitted_for_bound rl key lo es :
  Forall (fun e => lo <= at_time e < lo + window rl) es ->
  admitted_for rl key es + live_since lo (ledger rl key)
  <= Z.max (limit rl) (live_since lo (ledger rl key)).
Proof.
  revert rl. induction es as [|e es IH]; intros rl Hwin; [simpl; lia|].
  inversion Hwin as [|? ? He Hes]; subst.
  specialize (IH (step rl e)). rewrite step_window, step_limit in IH.
  specialize (IH Hes). simpl admitted_for.
  destruct e as [now k|now]; simpl in He; unfold step in *.
  - destruct (decide (k = key)) as [->|Hne].
    + rewrite bool_decide_eq_true_2 by done. simpl.
      rewrite allow_ledger' in IH. simpl in IH.
      pose proof (allow_decision rl now key) as Hd.
      pose proof (live_since_le_length lo
                    (validRequests (now - window rl) (ledger rl key))) as Hlen.
      destruct (allow rl now key).2.
      * symmetry in Hd. apply negb_true_iff, Z.leb_gt in Hd.
        rewrite live_since_snoc, live_since_valid in IH by lia.
        rewrite live_since_valid in Hlen by lia. lia.
      * rewrite live_since_valid in IH by lia. lia.
    + rewrite bool_decide_eq_false_2 by done. simpl.
      rewrite allow_ledger_other in IH by done. lia.
  - rewrite cleanup_cycle_ledger, live_since_valid in IH by lia. lia.
Qed.

(** X7. The quota holds under any interleaving.  In a run of steps -- calls
    of [allow] for any keys and reaper cycles, in any order -- whose clock
    readings all lie in one window [[lo, lo + window)], at most [limit]
    calls for a given key are admitted, whatever the limiter held before
    ([limit >= 0]). *)
Theorem quota_under_interleaving
    (rl : rateLimiter) (key : string) (lo : Z) (es : list event) :
  0 <= limit rl ->
  Forall (fun e => lo <= at_time e < lo + window rl) es ->
  admitted_for rl key es <= limit rl.
Proof.
  intros Hlim Hwin.
  pose proof (admitted_for_bound rl key lo es Hwin).
  assert (0 <= live_since lo (ledger rl key)) by (unfold live_since; lia).
  lia.
Qed.

Lemma quota_under_interleaving_witness :
  let rl := {| requests := {[ "A" := [4] ]}; limit := 2; window := 10 |} in
  let es := [Allow 5 "A"; Allow 5 "B"; Tick 6; Allow 7 "A"; Allow 9 "A";
             Tick 12; Allow 13 "A"] in
  0 <= limit rl /\
  Forall (fun e => 4 <= at_time e < 4 + window rl) es /\
  (run rl es).2 = [true; true; false; false; false] /\
  admitted_for rl "A" es <= limit rl.
Proof.
  intros rl es.
  assert (Hlim : 0 <= limit rl) by (simpl; lia).
  assert (Hwin : Forall (fun e => 4 <= at_time e < 4 + window rl) es).
  { repeat constructor; simpl; lia. }
  split; [exact Hlim|]. split; [exact Hwin|]. split; [reflexivity|].
  exact (quota_under_interleaving rl "A" 4 es Hlim Hwin).
Defined.

(** ** What later calls cannot observe *)

Lemma same_view_refl t rl : same_view t rl rl.
Proof. by repeat split. Qed.

Lemma same_view_trans t rl1 rl2 rl3 :
  same_view t rl1 rl2 -> same_view t rl2 rl3 -> same_view t rl1 rl3.
Proof.
  intros (Hl & Hw & Hv) (Hl' & Hw' & Hv'). repeat split; [congruence..|].
  intros key. rewrite Hv, Hw. apply Hv'.
Qed.

Lemma same_view_mono t t' rl rl' :
  t <= t' -> same_view t rl rl' -> same_view t' rl rl'.
Proof.
  intros Hle (Hl & Hw & Hv). repeat split; [done..|]. intros key.
  rewrite <- (validRequests_twice (t - window rl) (t' - window rl)
                (ledger rl key)) by lia.
  rewrite <- (validRequests_twice (t - window rl) (t' - window rl)
                (ledger rl' key)) by lia.
  by rewrite Hv.
Qed.

Lemma allow_same_view now rl rl' key :
  same_view now rl rl' ->
  (allow rl now key).2 = (allow rl' now key).2 /\
  same_view now (allow rl now key).1 (allow rl' now key).1.
Proof.
  intros (Hl & Hw & Hv).
  assert (Hd : (allow rl now key).2 = (allow rl' now key).2).
  { by rewrite !allow_decision, <- Hw, <- Hl, Hv. }
  split; [exact Hd|].
  split; [by rewrite !allow_limit|]. split; [by rewrite !allow_window|].
  intros k. rewrite allow_window.
  destruct (decide (key = k)) as [<-|Hne].
  - by rewrite !allow_ledger', <- Hd, <- Hw, Hv.
  - rewrite !allow_ledger_other by done. apply Hv.
Qed.

Lemma cleanup_cycle_same_view now rl : same_view now (cleanup_cycle rl now) rl.
Proof.
  repeat split. intros key.
  change (window (cleanup_cycle rl now)) with (window rl).
  rewrite cleanup_cycle_ledger. apply validRequests_twice. lia.
Qed.

Lemma rejected_same_view now rl key :
  (allow rl now key).2 = false -> same_view now (allow rl now key).1 rl.
Proof.
  intros Hd.
  split; [apply allow_limit|]. split; [apply allow_window|].
  intros k. rewrite allow_window.
  destruct (decide (key = k)) as [<-|Hne].
  - rewrite allow_ledger', Hd. simpl. apply validRequests_twice. lia.
  - by rewrite allow_ledger_other.
Qed.

Lemma run_allow rl now key es :
  run rl (Allow now key :: es)
  = ((run (allow rl now key).1 es).1,
     (allow rl now key).2 :: (run (allow rl now key).1 es).2).
Proof.
  simpl. destruct (allow rl now key) as [rl1 b]. simpl.
  by destruct (run rl1 es).
Qed.

Lemma run_without_ticks t rl rl' es :
  same_view t rl rl' ->
  StronglySorted Z.le (t :: map at_time es) ->
  (run rl es).2 = (run rl' (drop_ticks es)).2.
Proof.
  revert t rl rl'. induction es as [|e es IH]; intros t rl rl' Hv Hs; [done|].
  apply StronglySorted_inv in Hs as [Hs Hall]. simpl in Hs, Hall.
  apply Forall_cons_1 in Hall as [Hle _].
  apply (same_view_mono _ (at_time e)) in Hv; [|exact Hle].
  destruct e as [now key|now]; simpl in Hv, Hs.
  - change (drop_ticks (Allow now key :: es))
      with (Allow now key :: drop_ticks es).
    rewrite !run_allow. simpl.
    destruct (allow_same_view now rl rl' key Hv) as [Hd Hv'].
    rewrite Hd. f_equal. by apply (IH now).
  - change (drop_ticks (Tick now :: es)) with (drop_ticks es).
    simpl run. apply (IH now); [|exact Hs].
    eapply same_view_trans; [apply cleanup_cycle_same_view|exact Hv].
Qed.

(** X8. The reaper changes no decision.  In a run whose clock readings are
    nondecreasing, every call of [allow] gets the answer it gets in the
    same run with all reaper cycles left out. *)
Theorem reaper_changes_no_decision (rl : rateLimiter) (es : list event) :
  Sorted Z.le (map at_time es) ->
  (run rl es).2 = (run rl (drop_ticks es)).2.
Proof.
  intros Hs. destruct es as [|e es]; [done|].
  apply (run_without_ticks (at_time e)); [apply same_view_refl|].
  apply Sorted_StronglySorted in Hs; [|intros x y z; lia].
  constructor; [exact Hs|].
  apply StronglySorted_inv in Hs as [_ Hall].
  constructor; [simpl; lia|exact Hall].
Qed.

Lemma reaper_changes_no_decision_witness :
  let rl := {| requests := ∅; limit := 2; window := 10 |} in
  let es := [Allow 0 "A"; Allow 1 "A"; Tick 5; Allow 6 "A"; Tick 11;
             Allow 11 "A"; Allow 12 "B"; Tick 30; Allow 30 "A"] in
  Sorted Z.le (map at_time es) /\
  (run rl es).2 = (run rl (drop_ticks es)).2 /\
  (run rl es).2 = [true; true; false; true; true; true].
Proof.
  intros rl es.
  assert (Hs : Sorted Z.le (map at_time es)).
  { repeat constructor; simpl; lia. }
  split; [exact Hs|]. split.
  - exact (reaper_changes_no_decision rl es Hs).
  - reflexivity.
Defined.

(** X9. A rejected call costs nothing.  In a run whose clock readings are
    nondecreasing, a call that [allow] rejects changes no later decision,
    for its own key or any other: the run after it answers as it would
    have without the rejected call. *)
Theorem rejected_call_changes_no_decision
    (rl : rateLimiter) (now : Z) (key : string) (es : list event) :
  (allow rl now key).2 = false ->
  Sorted Z.le (now :: map at_time es) ->
  (run (allow rl now key).1 es).2 = (run rl es).2.
Proof.
  intros Hd Hs.
  apply Sorted_StronglySorted in Hs; [|intros x y z; lia].
  rewrite (run_without_ticks now _ rl es (rejected_same_view _ _ _ Hd) Hs).
  symmetry. by apply (run_without_ticks now); [apply same_view_refl|].
Qed.

Lemma rejected_call_changes_no_decision_witness :
  let rl := {| requests := {[ "A" := [0; 1] ]}; limit := 2; window := 10 |} in
  let es := [Allow 6 "A"; Allow 10 "A"; Tick 11; Allow 11 "A"; Allow 12 "A"] in
  (allow rl 5 "A").2 = false /\
  Sorted Z.le (5 :: map at_time es) /\
  (run (allow rl 5 "A").1 es).2 = (run rl es).2 /\
  (run rl es).2 = [false; true; true; false].
Proof.
  intros rl es.
  assert (Hd : (allow rl 5 "A").2 = false) by reflexivity.
  assert (Hs : Sorted Z.le (5 :: map at_time es)).
  { repeat constructor; simpl; lia. }
  split; [exact Hd|]. split; [exact Hs|]. split.
  - exact (rejected_call_changes_no_decision rl 5 "A" es Hd Hs).
  - reflexivity.
Defined.

(** * The [RateLimit] middleware *)

Lemma RateLimit_handler_key limiter now c key :
  rateLimitKey c = Returns key ->
  RateLimit_handler limiter now c
  = ((allow limiter now key).1,
     Returns (if (allow limiter now key).2 then Next else too_many_requests)).
Proof.
  intros Hk. unfold RateLimit_handler. rewrite Hk.
  by destruct (allow limiter now key) as [rl1 []].
Qed.

Lemma RateLimit_handler_panic limiter now c :
  rateLimitKey c = Panics -> RateLimit_handler limiter now c = (limiter, Panics).
Proof. intros Hk. unfold RateLimit_handler. by rewrite Hk. Qed.

Lemma serve_cons limiter now c reqs :
  serve limiter ((now, c) :: reqs)
  = ((serve (RateLimit_handler limiter now c).1 reqs).1,
     (RateLimit_handler limiter now c).2
       :: (serve (RateLimit_handler limiter now c).1 reqs).2).
Proof.
  simpl. destruct (RateLimit_handler limiter now c) as [l1 r]. simpl.
  by destruct (serve l1 reqs).
Qed.

Lemma passed_for_events limiter key reqs :
  passed_for limiter key reqs = admitted_for limiter key (request_events reqs).
Proof.
  revert limiter. induction reqs as [|[now c] reqs IH]; intros limiter; [done|].
  simpl passed_for. simpl request_events.
  destruct (rateLimitKey c) as [k|] eqn:Hk.
  - rewrite (RateLimit_handler_key _ _ _ _ Hk). simpl.
    rewrite IH. by destruct (allow limiter now k).2, (bool_decide (k = key)).
  - rewrite (RateLimit_handler_panic _ _ _ Hk). simpl. by rewrite IH.
Qed.

Lemma request_events_times (P : Z -> Prop) reqs :
  Forall (fun r => P r.1) reqs ->
  Forall (fun e => P (at_time e)) (request_events reqs).
Proof.
  induction 1 as [|[now c] reqs Hr _ IH]; simpl; [constructor|].
  destruct (rateLimitKey c); [by constructor|done].
Qed.

(** X10. The middleware's quota.  Whatever the captured limiter holds, when
    its window is the minute that [RateLimit] gives it and its limit is not
    negative: of the requests handled within one minute [[lo, lo + 1min)],
    at most [limit] of those charged to a given key are passed on to the
    next handler -- whether the key is a user id sent from several client
    addresses or the address of an anonymous client, and whatever other
    requests are handled in between. *)
Theorem RateLimit_quota
    (limiter : rateLimiter) (key : string) (lo : Z)
    (reqs : list (Z * ginContext)) :
  0 <= limit limiter ->
  window limiter = Time.Minute ->
  Forall (fun r => lo <= r.1 < lo + Time.Minute) reqs ->
  passed_for limiter key reqs <= limit limiter.
Proof.
  intros Hlim Hwin Hreqs. rewrite passed_for_events.
  pose proof (admitted_for_bound limiter key lo (request_events reqs)) as Hb.
  rewrite Hwin in Hb.
  specialize (Hb (request_events_times
                    (fun t => lo <= t < lo + Time.Minute) reqs Hreqs)).
  assert (0 <= live_since lo (ledger limiter key))
    by (unfold live_since; lia).
  lia.
Qed.

Lemma RateLimit_quota_witness :
  let limiter := {| requests := ∅; limit := 2; window := Time.Minute |} in
  let user ip := {| ClientIP := ip; RequestHeader := ∅;
                    Keys := {[ "user_id" := Str "u1" ]};
                    ResponseHeader := ∅ |} in
  let anon ip := {| ClientIP := ip; RequestHeader := ∅; Keys := ∅;
                    ResponseHeader := ∅ |} in
  let reqs := [(0, user "10.0.0.1"); (1, anon "10.0.0.1");
               (2, user "10.0.0.2"); (3, user "10.0.0.3")] in
  RateLimit 2 = Returns limiter /\
  0 <= limit limiter /\
  window limiter = Time.Minute /\
  Forall (fun r => 0 <= r.1 < 0 + Time.Minute) reqs /\
  (serve limiter reqs).2
    = [Returns Next; Returns Next; Returns Next; Returns too_many_requests] /\
  passed_for limiter "u1" reqs <= limit limiter.
Proof.
  intros limiter user anon reqs.
  assert (Hlim : 0 <= limit limiter) by (simpl; lia).
  assert (Hwin : window limiter = Time.Minute) by reflexivity.
  assert (Hreqs : Forall (fun r => 0 <= r.1 < 0 + Time.Minute) reqs).
  { repeat constructor; vm_compute; try discriminate; reflexivity. }
  split; [reflexivity|]. split; [exact Hlim|]. split; [exact Hwin|].
  split; [exact Hreqs|]. split; [vm_compute; reflexivity|].
  exact (RateLimit_quota limiter "u1" 0 reqs Hlim Hwin Hreqs).
Defined.

Lemma serve_same_key limiter key reqs :
  Forall (fun r => rateLimitKey r.2 = Returns key) reqs ->
  (serve limiter reqs).2
  = map (fun b : bool => Returns (if b then Next else too_many_requests))
        (calls_for limiter key (map fst reqs)).2.
Proof.
  revert limiter. induction reqs as [|[now c] reqs IH]; intros limiter Hk.
  - done.
  - inversion Hk as [|? ? Hc Hrest]; subst. simpl in Hc.
    rewrite serve_cons. simpl map. rewrite calls_for_cons. simpl.
    rewrite (RateLimit_handler_key _ _ _ _ Hc). simpl.
    f_equal. by apply IH.
Qed.

(** X11. [RateLimit(n)] from its first request on: of the requests charged
    to one key and handled within one minute, exactly the first [n] are
    passed on, and every later one is answered with status 429 and code
    [RATE_LIMIT_EXCEEDED] and aborted. *)
Theorem RateLimit_passes_first_n
    (n : Z) (limiter : rateLimiter) (key : string) (lo : Z)
    (reqs : list (Z * ginContext)) (i : nat) (r : outcome reply) :
  RateLimit n = Returns limiter ->
  Forall (fun r => lo <= r.1 < lo + Time.Minute) reqs ->
  Forall (fun r => rateLimitKey r.2 = Returns key) reqs ->
  (serve limiter reqs).2 !! i = Some r ->
  r = Returns (if bool_decide (Z.of_nat i < n) then Next
               else too_many_requests).
Proof.
  intros Hnew Htimes Hkeys. injection Hnew as <-.
  rewrite (serve_same_key _ key) by done.
  change (map ?f ?l) with (f <$> l). rewrite list_lookup_fmap.
  destruct (_ !! i) as [b|] eqn:Hb; [|done]. simpl. intros [= <-].
  assert (Hfresh : ledger {| requests := ∅; limit := n;
                             window := Time.Minute |} key = []).
  { unfold ledger. simpl. by rewrite lookup_empty. }
  assert (Hwin : Forall (fun t => lo <= t < lo + Time.Minute) (map fst reqs)).
  { apply Forall_fmap. eapply Forall_impl; [exact Htimes|]. by intros [t c]. }
  pose proof (calls_for_fill
    {| requests := ∅; limit := n; window := Time.Minute |} key lo
    (map fst reqs) Hwin) as Hfill.
  rewrite Hfresh in Hfill.
  rewrite (Hfill (Forall_nil_2 _) i b Hb). simpl.
  by rewrite Z.add_0_l.
Qed.

Lemma RateLimit_passes_first_n_witness :
  let limiter := {| requests := ∅; limit := 2; window := Time.Minute |} in
  let user ip := {| ClientIP := ip; RequestHeader := ∅;
                    Keys := {[ "user_id" := Str "u1" ]};
                    ResponseHeader := ∅ |} in
  let reqs := [(0, user "10.0.0.1"); (Time.Second, user "10.0.0.2");
               (59 * Time.Second, user "10.0.0.1")] in
  RateLimit 2 = Returns limiter /\
  Forall (fun r => 0 <= r.1 < 0 + Time.Minute) reqs /\
  Forall (fun r => rateLimitKey r.2 = Returns "u1") reqs /\
  (serve limiter reqs).2 !! 2%nat = Some (Returns too_many_requests) /\
  forall r, (serve limiter reqs).2 !! 2%nat = Some r ->
            r = Returns too_many_requests.
Proof.
  intros limiter user reqs.
  assert (Hnew : RateLimit 2 = Returns limiter) by reflexivity.
  assert (Htimes : Forall (fun r => 0 <= r.1 < 0 + Time.Minute) reqs).
  { repeat constructor; vm_compute; try discriminate; reflexivity. }
  assert (Hkeys : Forall (fun r => rateLimitKey r.2 = Returns "u1") reqs).
  { repeat constructor. }
  split; [exact Hnew|]. split; [exact Htimes|]. split; [exact Hkeys|].
  split; [reflexivity|]. intros r Hr.
  exact (RateLimit_passes_first_n 2 limiter "u1" 0 reqs 2 r
           Hnew Htimes Hkeys Hr).
Defined.

(** X12. A limiter whose limit is not positive -- [RateLimit(n)] with
    [n <= 0] -- passes nothing on: every request is answered with the 429
    rejection, at any time and for any key, except that a request whose
    [user_id] is not a string makes the handler panic. *)
Theorem RateLimit_nonpositive_blocks
    (limiter : rateLimiter) (reqs : list (Z * ginContext)) :
  limit limiter <= 0 ->
  (serve limiter reqs).2
  = map (fun r => match rateLimitKey r.2 with
                  | Returns _ => Returns too_many_requests
                  | Panics => Panics
                  end) reqs.
Proof.
  revert limiter. induction reqs as [|[now c] reqs IH]; intros limiter Hlim.
  - done.
  - rewrite serve_cons. simpl.
    destruct (rateLimitKey c) as [key|] eqn:Hk.
    + rewrite (RateLimit_handler_key _ _ _ _ Hk). simpl.
      rewrite allow_rejects_nonpositive by done.
      f_equal. apply IH. by rewrite allow_limit.
    + rewrite (RateLimit_handler_panic _ _ _ Hk). simpl.
      f_equal. by apply IH.
Qed.

Lemma RateLimit_nonpositive_blocks_witness :
  let limiter := {| requests := ∅; limit := 0; window := Time.Minute |} in
  let anon ip := {| ClientIP := ip; RequestHeader := ∅; Keys := ∅;
                    ResponseHeader := ∅ |} in
  let reqs := [(0, anon "10.0.0.1"); (3600 * Time.Second, anon "10.0.0.2")] in
  RateLimit 0 = Returns limiter /\
  limit limiter <= 0 /\
  (serve limiter reqs).2
  = [Returns too_many_requests; Returns too_many_requests].
Proof.
  intros limiter anon reqs.
  assert (Hlim : limit limiter <= 0) by (simpl; lia).
  split; [reflexivity|]. split; [exact Hlim|].
  rewrite (RateLimit_nonpositive_blocks limiter reqs Hlim). reflexivity.
Defined.

(** X14. The middleware adds nothing to the limiter: serving a sequence of
    requests leaves the captured limiter exactly as the run of the [allow]
    calls of the requests whose key selection did not panic, and the
    replies other than panics are those calls' decisions, in order. *)
Theorem serve_is_run (limiter : rateLimiter) (reqs : list (Z * ginContext)) :
  (serve limiter reqs).1 = (run limiter (request_events reqs)).1 /\
  omap (fun r => match r with
                 | Returns Next => Some true
                 | Returns (AbortJSON _ _ _) => Some false
                 | Panics => None
                 end) (serve limiter reqs).2
  = (run limiter (request_events reqs)).2.
Proof.
  revert limiter. induction reqs as [|[now c] reqs IH]; intros limiter.
  - done.
  - rewrite serve_cons. simpl request_events.
    destruct (rateLimitKey c) as [key|] eqn:Hk.
    + rewrite (RateLimit_handler_key _ _ _ _ Hk), run_allow. cbn [fst snd].
      destruct (IH (allow limiter now key).1) as [IH1 IH2].
      split; [exact IH1|]. rewrite <- IH2.
      by destruct (allow limiter now key).2.
    + rewrite (RateLimit_handler_panic _ _ _ Hk). cbn [fst snd]. apply IH.
Qed.

(** * The [RequestID] middleware *)

(** The entry of a header map that the name [X-Request-ID] reads and writes. *)
Lemma RequestIDHeader_canonical :
  CanonicalMIMEHeaderKey RequestIDHeader = "X-Request-Id".
Proof. reflexivity. Qed.

Example CanonicalMIMEHeaderKey_cases :
  CanonicalMIMEHeaderKey "accept-encoding" = "Accept-Encoding" /\
  CanonicalMIMEHeaderKey "x-request-id" = "X-Request-Id" /\
  CanonicalMIMEHeaderKey "X-REQUEST-ID" = "X-Request-Id" /\
  CanonicalMIMEHeaderKey "x request id" = "x request id".
Proof. repeat split. Qed.

Lemma GetHeader_RequestID c :
  GetHeader c RequestIDHeader
  = match RequestHeader c !! "X-Request-Id" with
    | Some (v :: _) => v
    | _ => ""
    end.
Proof. unfold GetHeader. by rewrite RequestIDHeader_canonical. Qed.

Lemma RequestID_handler_id fresh c :
  let id := if String.eqb (GetHeader c RequestIDHeader) "" then fresh
            else GetHeader c RequestIDHeader in
  Keys (RequestID_handler fresh c).1 = <["request_id" := Str id]> (Keys c) /\
  ResponseHeader (RequestID_handler fresh c).1
  = if String.eqb id "" then delete "X-Request-Id" (ResponseHeader c)
    else <["X-Request-Id" := [id]]> (ResponseHeader c).
Proof.
  split; [reflexivity|].
  unfold RequestID_handler, Header. cbn [fst ResponseHeader SetKey].
  by rewrite RequestIDHeader_canonical.
Qed.

(** X15. With a generator that yields a non-empty string, [RequestID]
    always ends with one non-empty id that is both stored in the context
    under [request_id] and set as the only value of the response header
    [X-Request-ID] (the entry [X-Request-Id] of the header map, its
    canonical name), and passes the request on.  The id is the first value
    of the request's [X-Request-ID] header when that is not empty --
    whatever the generator yields -- and the generated one otherwise
    (header absent, without values, or with an empty first value). *)
Theorem RequestID_sets_one_id (fresh : string) (c : ginContext) :
  fresh <> "" ->
  exists id,
    id <> "" /\
    Keys (RequestID_handler fresh c).1 !! "request_id" = Some (Str id) /\
    ResponseHeader (RequestID_handler fresh c).1 !! "X-Request-Id"
      = Some [id] /\
    (RequestID_handler fresh c).2 = Next /\
    (forall v vs, RequestHeader c !! "X-Request-Id" = Some (v :: vs) ->
                  v <> "" -> id = v) /\
    (GetHeader c RequestIDHeader = "" -> id = fresh).
Proof.
  intros Hfresh.
  destruct (RequestID_handler_id fresh c) as [Hkeys Hresp].
  cbv zeta in Hkeys, Hresp.
  set (id := if String.eqb (GetHeader c RequestIDHeader) "" then fresh
             else GetHeader c RequestIDHeader) in *.
  assert (Hid : id <> "").
  { unfold id. destruct (String.eqb_spec (GetHeader c RequestIDHeader) "");
      done. }
  exists id. split; [exact Hid|].
  split; [rewrite Hkeys; apply lookup_insert_eq|].
  split.
  { rewrite Hresp. destruct (String.eqb_spec id ""); [done|].
    apply lookup_insert_eq. }
  split; [reflexivity|]. split.
  - intros v vs Hh Hv. unfold id. rewrite GetHeader_RequestID, Hh.
    by destruct (String.eqb_spec v "").
  - intros He. unfold id. by rewrite He.
Qed.

Lemma RequestID_sets_one_id_witness :
  let c := {| ClientIP := "10.0.0.1";
              RequestHeader := {[ "X-Request-Id" := ["abc"; "def"] ]};
              Keys := ∅; ResponseHeader := ∅ |} in
  "generated" <> "" /\
  exists id,
    id = "abc" /\
    Keys (RequestID_handler "generated" c).1 !! "request_id" = Some (Str id) /\
    ResponseHeader (RequestID_handler "generated" c).1 !! "X-Request-Id"
      = Some [id].
Proof.
  intros c.
  assert (Hfresh : "generated" <> "") by discriminate.
  destruct (RequestID_sets_one_id "generated" c Hfresh)
    as (id & _ & Hk & Hr & _ & Hclient & _).
  split; [exact Hfresh|].
  exists id. split; [|split; [exact Hk|exact Hr]].
  apply (Hclient "abc" ["def"]); [reflexivity|discriminate].
Defined.

(** X16. The id survives a round trip: when a client sends back, as its
    [X-Request-ID] request header, the response header that [RequestID]
    set, the next run of [RequestID] stores and returns the same id,
    whatever its generator yields. *)
Theorem RequestID_round_trip (fresh fresh' : string) (c c' : ginContext) :
  fresh <> "" ->
  RequestHeader c' !! "X-Request-Id"
    = ResponseHeader (RequestID_handler fresh c).1 !! "X-Request-Id" ->
  Keys (RequestID_handler fresh' c').1 !! "request_id"
    = Keys (RequestID_handler fresh c).1 !! "request_id" /\
  ResponseHeader (RequestID_handler fresh' c').1 !! "X-Request-Id"
    = ResponseHeader (RequestID_handler fresh c).1 !! "X-Request-Id".
Proof.
  intros Hfresh Hecho.
  destruct (RequestID_handler_id fresh c) as [Hkeys Hresp].
  destruct (RequestID_handler_id fresh' c') as [Hkeys' Hresp'].
  cbv zeta in Hkeys, Hresp, Hkeys', Hresp'.
  set (id := if String.eqb (GetHeader c RequestIDHeader) "" then fresh
             else GetHeader c RequestIDHeader) in *.
  assert (Hid : id <> "").
  { unfold id. destruct (String.eqb_spec (GetHeader c RequestIDHeader) "");
      done. }
  assert (Hid' : String.eqb id "" = false).
  { destruct (String.eqb_spec id ""); [contradiction|reflexivity]. }
  rewrite Hid' in Hresp. rewrite Hresp, lookup_insert_eq in Hecho.
  assert (Hget : GetHeader c' RequestIDHeader = id).
  { rewrite GetHeader_RequestID. by rewrite Hecho. }
  rewrite Hget, Hid' in Hkeys', Hresp'.
  rewrite Hkeys, Hkeys', Hresp, Hresp', Hid'. by rewrite !lookup_insert_eq.
Qed.

Lemma RequestID_round_trip_witness :
  let c := {| ClientIP := "10.0.0.1"; RequestHeader := ∅;
              Keys := ∅; ResponseHeader := ∅ |} in
  let c' := {| ClientIP := "10.0.0.9";
               RequestHeader := {[ "X-Request-Id" := ["id-1"] ]};
               Keys := ∅; ResponseHeader := ∅ |} in
  "id-1" <> "" /\
  Keys (RequestID_handler "id-2" c').1 !! "request_id" = Some (Str "id-1") /\
  Keys (RequestID_handler "id-2" c').1 !! "request_id"
    = Keys (RequestID_handler "id-1" c).1 !! "request_id".
Proof.
  intros c c'.
  assert (Hfresh : "id-1" <> "") by discriminate.
  assert (Hecho : RequestHeader c' !! "X-Request-Id"
            = ResponseHeader (RequestID_handler "id-1" c).1 !! "X-Request-Id")
    by reflexivity.
  split; [exact Hfresh|]. split; [reflexivity|].
  exact (proj1 (RequestID_round_trip "id-1" "id-2" c c' Hfresh Hecho)).
Defined.

(** X17. [RequestID] touches nothing else: the client address and the
    request headers are as before, so is every context key other than
    [request_id] and every entry of the response header map other than
    [X-Request-Id], the canonical name under which the header
    [X-Request-ID] is stored -- an entry stored under [X-Request-ID] as
    written is among those left alone.  In particular the key that
    [RateLimit] charges is unchanged, and the [RateLimit] handler does the
    same with or without [RequestID] having run first. *)
Theorem RequestID_frame (fresh : string) (c : ginContext) :
  ClientIP (RequestID_handler fresh c).1 = ClientIP c /\
  RequestHeader (RequestID_handler fresh c).1 = RequestHeader c /\
  (forall k, k ≠ "request_id" ->
     Keys (RequestID_handler fresh c).1 !! k = Keys c !! k) /\
  (forall h, h ≠ "X-Request-Id" ->
     ResponseHeader (RequestID_handler fresh c).1 !! h
     = ResponseHeader c !! h) /\
  ResponseHeader (RequestID_handler fresh c).1 !! RequestIDHeader
    = ResponseHeader c !! RequestIDHeader /\
  rateLimitKey (RequestID_handler fresh c).1 = rateLimitKey c /\
  (forall limiter now,
     RateLimit_handler limiter now (RequestID_handler fresh c).1
     = RateLimit_handler limiter now c).
Proof.
  destruct (RequestID_handler_id fresh c) as [Hkeys Hresp].
  cbv zeta in Hkeys, Hresp.
  assert (Hk : rateLimitKey (RequestID_handler fresh c).1 = rateLimitKey c).
  { unfold rateLimitKey. rewrite Hkeys.
    by rewrite lookup_insert_ne by discriminate. }
  assert (Hframe : forall h, h ≠ "X-Request-Id" ->
            ResponseHeader (RequestID_handler fresh c).1 !! h
            = ResponseHeader c !! h).
  { intros h Hne. rewrite Hresp.
    set (id := if String.eqb (GetHeader c RequestIDHeader) "" then fresh
               else GetHeader c RequestIDHeader).
    destruct (String.eqb id "").
    - by rewrite lookup_delete_ne.
    - by rewrite lookup_insert_ne. }
  split; [reflexivity|]. split; [reflexivity|].
  split; [|split; [|split; [|split]]].
  - intros k Hne. rewrite Hkeys. by rewrite lookup_insert_ne.
  - exact Hframe.
  - apply Hframe. discriminate.
  - exact Hk.
  - intros limiter now. unfold RateLimit_handler. by rewrite Hk.
Qed.
